(** * iterative-compare: the merge-compare engine of [index.js]

    A shallow embedding of [index.js] and the properties of its
    specification.

    Modelling conventions.
    - JavaScript values are the inductive [val]; numbers are IEEE binary64
      floats ([PrimFloat.float]), so [NaN], both zeros and the infinities
      are present.  Symbols and BigInts are left out.
    - A comparator is documented to return a number ([@returns {number}
      -1, 0, 1]), but it is user code and may answer anything.  The engine
      looks at an answer through three tests only, [=== 0], [< 0] and
      [> 0]: the type [answer] has the numbers, as integers, and one more
      element for the answers that fail the three tests ([NaN],
      [undefined], ...).  A comparator or an extractor may throw, hence the
      [result] type.
    - A method of the engine is a computation in the monad [M]: it reads and
      writes the instance and may throw; a throw keeps the writes made
      before it, as in JavaScript.
    - The promise library is Q.  A promise is represented by the way it
      settles; the callbacks registered with [then]/[fail] wait in [queue]
      and one [tick] of the event loop runs the next one.  Promises returned
      by a source are assumed to be Q promises that settle.
    - A source (iterator) is a stateful object: its [behaviour] tells what
      the n-th call does and [pulls] counts the calls made so far.  The two
      arguments of [compare] are two distinct source objects. *)

From Stdlib Require Import ZArith String List Bool Lia PeanoNat.
From Stdlib Require Import PrimFloat.
From Stdlib Require SpecFloat FloatAxioms FloatOps.
Import ListNotations.

Local Open Scope Z_scope.

(** ** JavaScript values *)

Inductive val : Type :=
| VUndefined
| VNull
| VBool (b : bool)
| VNum (n : float)
| VStr (s : string)
| VObj (ref : nat).

(** [ToBoolean]: [undefined], [null], [false], [+0], [-0], [NaN] and the
    empty string are falsy, everything else is truthy. *)
Definition truthy (v : val) : bool :=
  match v with
  | VUndefined | VNull => false
  | VBool b => b
  | VNum n => negb (is_zero n || is_nan n)
  | VStr s => match s with EmptyString => false | String _ _ => true end
  | VObj _ => true
  end.

(** [a === b]: same type and same value; objects by reference. *)
Definition strict_eq (a b : val) : bool :=
  match a, b with
  | VUndefined, VUndefined => true
  | VNull, VNull => true
  | VBool x, VBool y => Bool.eqb x y
  | VNum x, VNum y => PrimFloat.eqb x y
  | VStr x, VStr y => String.eqb x y
  | VObj x, VObj y => Nat.eqb x y
  | _, _ => false
  end.

(** ** Errors and fallible results *)

Inductive error : Type :=
| Error (message : string)
| TypeError (message : string).

Definition AlreadyComparingError : error := Error "Already comparing".
Definition InvalidSourceShapeError : error :=
  Error "Iterator does not appear to be invokable".
Definition InvalidExtractionError : error :=
  Error "Invalid arguments passed to defaultExtract".
Definition NullishAccess : error :=
  TypeError "Cannot read properties of undefined".

Inductive result (A : Type) : Type :=
| Ok (a : A)
| Throw (e : error).
Arguments Ok {A} & a.
Arguments Throw {A} e.

(** ** Promises and sources *)

Inductive settle : Type :=
| Fulfils (v : val)
| Rejects (e : error).

(** A promise that settles as [outcome]; [delay] orders the settlements of
    two promises that are outstanding together. *)
Record promise : Type := { delay : nat; outcome : settle }.

(** What one call of a source does. *)
Inductive pull : Type :=
| Returns (v : val)          (* a plain value, not a promise *)
| Promises (p : promise)     (* a promise *)
| Throws (e : error).        (* the call itself throws *)

Record source : Type := { behaviour : nat -> pull; pulls : nat }.

(** The two shapes of source [callIter] accepts: a function, called as
    [iter()], and an object with a [next] method, called as [iter.next()]. *)
Inductive shape : Type :=
| Callable                   (* typeof iter === "function" *)
| HasNext.                   (* typeof iter.next === "function" *)

Inductive iterator : Type :=
| Iter (sh : shape) (s : source)
| IterOther                  (* any other value that is not null/undefined *)
| IterNullish.               (* null or undefined: reading iter.next throws *)

Definition invoke (s : source) : pull * source :=
  (behaviour s (pulls s), {| behaviour := behaviour s; pulls := S (pulls s) |}).

(** A plain value is converted into a resolved promise. *)
Definition wrap (o : pull) : result promise :=
  match o with
  | Returns v => Ok {| delay := 0; outcome := Fulfils v |}
  | Promises p => Ok p
  | Throws e => Throw e
  end.

(** [callIter iter]: the promise of the next value, and the source after the
    call. *)
Definition callIter (iter : iterator) : result promise * iterator :=
  match iter with
  | Iter Callable f =>         (* result = iter() *)
      let (result, f') := invoke f in (wrap result, Iter Callable f')
  | Iter HasNext next =>       (* result = iter.next() *)
      let (result, next') := invoke next in (wrap result, Iter HasNext next')
  | IterOther => (Throw InvalidSourceShapeError, iter)
  | IterNullish => (Throw NullishAccess, iter)
  end.
Arguments callIter : simpl never.

(** Number of calls a source has received. *)
Definition pulled (iter : iterator) : nat :=
  match iter with
  | Iter _ s => pulls s
  | IterOther | IterNullish => 0%nat
  end.

(** [Q.all] of two promises. *)
Inductive settle2 : Type :=
| Fulfils2 (v1 v2 : val)
| Rejects2 (e : error).

Definition all (p1 p2 : promise) : settle2 :=
  match outcome p1, outcome p2 with
  | Fulfils v1, Fulfils v2 => Fulfils2 v1 v2
  | Rejects e, Fulfils _ => Rejects2 e
  | Fulfils _, Rejects e => Rejects2 e
  | Rejects e1, Rejects e2 =>
      if (delay p1 <=? delay p2)%nat then Rejects2 e1 else Rejects2 e2
  end.

(** ** Default comparator and extractor *)

(** What a comparator answers, as the engine sees it: a number, of which
    the tests [=== 0], [< 0] and [> 0] read the sign, or a value for which
    the three tests are false ([NaN], [undefined], [null], an object that
    converts to [NaN], ...).  An integer stands for the number it denotes. *)
Inductive answer : Type :=
| Number (z : Z)
| Unordered.

Coercion Number : Z >-> answer.

Definition cmp_fn : Type := val -> val -> result answer.
Definition extract_fn (R : Type) : Type := val -> val -> Z -> result R.

Section Defaults.

(** [a < b] for operands that are not two numbers or two strings goes
    through the host's conversions ([ToPrimitive], [ToNumber]), which can
    run user code and throw. *)
Variable host_lt : val -> val -> result bool.

Definition js_lt (a b : val) : result bool :=
  match a, b with
  | VNum x, VNum y => Ok (PrimFloat.ltb x y)
  | VStr x, VStr y => Ok (String.ltb x y)
  | _, _ => host_lt a b
  end.

Definition defaultCmp : cmp_fn := fun a b =>
  if strict_eq a b then Ok (Number 0)
  else match js_lt a b with
       | Ok lt => Ok (Number (if lt then -1 else 1))
       | Throw e => Throw e
       end.

End Defaults.

Record DiffRecord : Type := { value : val; exists_ : string }.

Definition defaultExtract : extract_fn DiffRecord := fun v1 v2 cmpResult =>
  if truthy v1 && truthy v2 then Ok {| value := v1; exists_ := "both" |}
  else if truthy v1 then Ok {| value := v1; exists_ := "left" |}
  else if truthy v2 then Ok {| value := v2; exists_ := "right" |}
  else Throw InvalidExtractionError.

(** ** The engine instance *)

(** State of the deferred created by [compare]. *)
Inductive deferred (R : Type) : Type :=
| Pending
| Resolved (results : list R)
| Rejected (err : error).
Arguments Pending {R}.
Arguments Resolved {R} results.
Arguments Rejected {R} err.

(** The [then]/[fail] chain registered by a step and waiting for its
    promise(s). *)
Inductive task : Type :=
| ThenLeft (p : promise) (rightVal : val)   (* registered by [_stepLeft] *)
| ThenRight (leftVal : val) (p : promise)   (* registered by [_stepRight] *)
| ThenBoth (p1 p2 : promise).               (* registered by [_stepBoth] *)

(** The fields of an [IterativeCompare] instance, followed by what the
    instance has handed to its environment: the callbacks waiting in the
    event loop and the progress notifications sent so far (each one is the
    content of [_results] when [notify] was called). *)
Record engine (R : Type) : Type := {
  compareFn : cmp_fn;
  extractFn : extract_fn R;
  _deferred : option (deferred R);   (* [None] is [null] *)
  _iter1 : iterator;
  _iter2 : iterator;
  _results : list R;
  queue : list task;
  notified : list (list R)
}.
Arguments compareFn {R} e.
Arguments extractFn {R} e.
Arguments _deferred {R} e.
Arguments _iter1 {R} e.
Arguments _iter2 {R} e.
Arguments _results {R} e.
Arguments queue {R} e.
Arguments notified {R} e.

Section Engine.

Context {R : Type}.

Definition set_deferred (d : option (deferred R)) (st : engine R) : engine R :=
  {| compareFn := compareFn st; extractFn := extractFn st; _deferred := d;
     _iter1 := _iter1 st; _iter2 := _iter2 st; _results := _results st;
     queue := queue st; notified := notified st |}.

Definition set_iter1 (it : iterator) (st : engine R) : engine R :=
  {| compareFn := compareFn st; extractFn := extractFn st;
     _deferred := _deferred st; _iter1 := it; _iter2 := _iter2 st;
     _results := _results st; queue := queue st; notified := notified st |}.

Definition set_iter2 (it : iterator) (st : engine R) : engine R :=
  {| compareFn := compareFn st; extractFn := extractFn st;
     _deferred := _deferred st; _iter1 := _iter1 st; _iter2 := it;
     _results := _results st; queue := queue st; notified := notified st |}.

Definition set_results (l : list R) (st : engine R) : engine R :=
  {| compareFn := compareFn st; extractFn := extractFn st;
     _deferred := _deferred st; _iter1 := _iter1 st; _iter2 := _iter2 st;
     _results := l; queue := queue st; notified := notified st |}.

Definition set_queue (q : list task) (st : engine R) : engine R :=
  {| compareFn := compareFn st; extractFn := extractFn st;
     _deferred := _deferred st; _iter1 := _iter1 st; _iter2 := _iter2 st;
     _results := _results st; queue := q; notified := notified st |}.

Definition set_notified (n : list (list R)) (st : engine R) : engine R :=
  {| compareFn := compareFn st; extractFn := extractFn st;
     _deferred := _deferred st; _iter1 := _iter1 st; _iter2 := _iter2 st;
     _results := _results st; queue := queue st; notified := n |}.

(** *** The monad of methods: state of the instance, and exceptions *)

Definition M (A : Type) : Type := engine R -> result A * engine R.

Definition ret {A} (a : A) : M A := fun st => (Ok a, st).

Definition bind {A B} (c : M A) (f : A -> M B) : M B := fun st =>
  match c st with
  | (Ok a, st') => f a st'
  | (Throw e, st') => (Throw e, st')
  end.

Definition throw {A} (e : error) : M A := fun st => (Throw e, st).

Definition gets {A} (f : engine R -> A) : M A := fun st => (Ok (f st), st).

Definition modify (f : engine R -> engine R) : M unit := fun st => (Ok tt, f st).

Notation "x <- c1 ;; c2" := (bind c1 (fun x => c2))
  (at level 61, c1 at next level, right associativity).
Notation "c1 ;; c2" := (bind c1 (fun _ => c2))
  (at level 61, right associativity).

(** *** Operations of the deferred *)

(** [this._deferred.notify( this._results )]: a pending deferred passes
    the list on to its progress listeners; a settled one ignores it. *)
Definition notify : M unit :=
  d <- gets _deferred ;;
  match d with
  | None => throw NullishAccess
  | Some Pending => modify (fun st => set_notified (notified st ++ [_results st]) st)
  | Some _ => ret tt
  end.

(** [d.resolve( this._results )]. *)
Definition resolve : M unit :=
  d <- gets _deferred ;;
  match d with
  | None => throw NullishAccess
  | Some Pending => modify (fun st => set_deferred (Some (Resolved (_results st))) st)
  | Some _ => ret tt
  end.

(** [self._deferred.reject( err )], as the [fail] handlers call it. *)
Definition reject (err : error) (st : engine R) : engine R :=
  match _deferred st with
  | Some Pending => set_deferred (Some (Rejected err)) st
  | _ => st
  end.

(** *** Pulling the sources *)

Definition callIter1 : M promise := fun st =>
  let (r, it) := callIter (_iter1 st) in (r, set_iter1 it st).

Definition callIter2 : M promise := fun st =>
  let (r, it) := callIter (_iter2 st) in (r, set_iter2 it st).

Definition register (t : task) : M unit :=
  modify (fun st => set_queue (queue st ++ [t]) st).

Definition _stepLeft (rightVal : val) : M unit :=
  p <- callIter1 ;; register (ThenLeft p rightVal).

Definition _stepRight (leftVal : val) : M unit :=
  p <- callIter2 ;; register (ThenRight leftVal p).

Definition _stepBoth : M unit :=
  p1 <- callIter1 ;; p2 <- callIter2 ;; register (ThenBoth p1 p2).

(** The tests [c === 0], [c < 0] and [c > 0] on what may be an answer of
    the comparator or [null] ([None]): the three are false on [null], as
    they are on an unordered answer. *)
Definition is0 (c : option answer) : bool :=
  match c with Some (Number z) => z =? 0 | _ => false end.
Definition lt0 (c : option answer) : bool :=
  match c with Some (Number z) => z <? 0 | _ => false end.
Definition gt0 (c : option answer) : bool :=
  match c with Some (Number z) => z >? 0 | _ => false end.

Definition _step (v1 v2 : val) (cmp : answer) : M unit :=
  if is0 (Some cmp) then _stepBoth
  else if lt0 (Some cmp) then _stepLeft v2
  else _stepRight v1.

(** *** Adding a result *)

Definition push (r : R) : M unit :=
  modify (fun st => set_results (_results st ++ [r]) st).

Definition extract (v1 v2 : val) (c : Z) : M R := fun st =>
  (extractFn st v1 v2 c, st).

Definition _addResult (v1 v2 : val) (cmpResult : option answer) : M unit :=
  (if is0 cmpResult && truthy v1 && truthy v2 then
     r <- extract v1 v2 0 ;; push r
   else if lt0 cmpResult || negb (truthy v2) then
     r <- extract v1 VNull (-1) ;; push r
   else if gt0 cmpResult || negb (truthy v1) then
     r <- extract VNull v2 1 ;; push r
   else ret tt) ;;
  notify.

(** *** Comparing two values *)

Definition _compareValues (val1 val2 : val) : M unit :=
  if truthy val1 && truthy val2 then
    cmp <- (fun st => (compareFn st val1 val2, st)) ;;
    _addResult val1 val2 (Some cmp) ;;
    _step val1 val2 cmp
  else if truthy val1 then
    _addResult val1 val2 None ;;
    _stepLeft VUndefined
  else if truthy val2 then
    _addResult val1 val2 None ;;
    _stepRight VUndefined
  else
    resolve.

(** *** Starting a comparison *)

(** [compare] returns [this._deferred.promise], the promise whose state is
    [_deferred]; the progress it reports is [notified]. *)

Definition compare (iter1 iter2 : iterator) : M unit :=
  d <- gets _deferred ;;
  match d with
  | Some _ => throw AlreadyComparingError
  | None =>
      modify (set_iter1 iter1) ;;
      modify (set_iter2 iter2) ;;
      modify (set_results []) ;;
      modify (set_deferred (Some Pending)) ;;
      _stepBoth
  end.

(** *** The event loop *)

(** A [then] callback that throws rejects the promise [then] returned,
    which the [fail] handler of the chain turns into [reject]. *)
Definition callback (c : M unit) (st : engine R) : engine R :=
  match c st with
  | (Ok _, st') => st'
  | (Throw e, st') => reject e st'
  end.

(** What a waiting chain receives: the two values its [then] callback
    passes to [_compareValues], or the rejection its [fail] handler gets. *)
Definition awaited (t : task) : settle2 :=
  match t with
  | ThenLeft p rightVal =>
      match outcome p with
      | Fulfils v => Fulfils2 v rightVal
      | Rejects e => Rejects2 e
      end
  | ThenRight leftVal p =>
      match outcome p with
      | Fulfils v => Fulfils2 leftVal v
      | Rejects e => Rejects2 e
      end
  | ThenBoth p1 p2 => all p1 p2
  end.

Definition run_task (t : task) (st : engine R) : engine R :=
  match awaited t with
  | Fulfils2 v1 v2 => callback (_compareValues v1 v2) st
  | Rejects2 e => reject e st
  end.

(** One turn of the event loop: the oldest waiting chain runs. *)
Definition tick (st : engine R) : engine R :=
  match queue st with
  | [] => st
  | t :: q => run_task t (set_queue q st)
  end.

Fixpoint run (n : nat) (st : engine R) : engine R :=
  match n with
  | O => st
  | S k => run k (tick st)
  end.

(** The failure, if any, of the next turn of the event loop, computed by
    running it: the awaited pull was rejected, or the callback threw.  The
    causes of a throw are told apart by [raises] below. *)
Definition failure_of_turn (st : engine R) : option error :=
  match queue st with
  | [] => None
  | t :: q =>
      match awaited t with
      | Rejects2 e => Some e
      | Fulfils2 v1 v2 =>
          match fst (_compareValues v1 v2 (set_queue q st)) with
          | Throw e => Some e
          | Ok _ => None
          end
      end
  end.

(** A new instance with the given comparator and extractor.  The
    constructor sets [_deferred] to [null]; [_iter1], [_iter2] and
    [_results] do not exist before [compare] creates them, and stand here
    as [undefined] sources and the empty list. *)
Definition create (c : cmp_fn) (x : extract_fn R) : engine R :=
  {| compareFn := c; extractFn := x; _deferred := None;
     _iter1 := IterNullish; _iter2 := IterNullish; _results := [];
     queue := []; notified := [] |}.

(** The state in which [compare iter1 iter2] leaves a new instance. *)
Definition started (c : cmp_fn) (x : extract_fn R) (iter1 iter2 : iterator)
  : engine R :=
  snd (compare iter1 iter2 (create c x)).

End Engine.

(** The constructor: [options.compareFn || defaultCmp] and
    [options.extractFn || defaultExtract]. *)
Record options : Type := {
  opt_compareFn : option cmp_fn;
  opt_extractFn : option (extract_fn DiffRecord)
}.

Definition IterativeCompare (host_lt : val -> val -> result bool)
    (o : options) : engine DiffRecord :=
  create
    (match opt_compareFn o with Some c => c | None => defaultCmp host_lt end)
    (match opt_extractFn o with Some x => x | None => defaultExtract end).

(** ** Sources that deliver a sequence *)

(** The value a call hands to the engine, when the call does not fail. *)
Definition delivered (o : pull) : option val :=
  match o with
  | Returns v => Some v
  | Promises p => match outcome p with Fulfils v => Some v | Rejects _ => None end
  | Throws _ => None
  end.

(** From its [i]-th call on, the source delivers the elements of [A], all
    truthy, and then a falsy value.  Nothing is said about later calls. *)
Fixpoint yields (beh : nat -> pull) (i : nat) (A : list val) : Prop :=
  match A with
  | [] => exists v, delivered (beh i) = Some v /\ truthy v = false
  | a :: A' => delivered (beh i) = Some a /\ truthy a = true /\ yields beh (S i) A'
  end.

(** A function returning the elements of a list one by one as plain values,
    then [undefined] for ever. *)
Definition list_behaviour (l : list val) : nat -> pull :=
  fun n => Returns (nth n l VUndefined).

Definition of_list (l : list val) : iterator :=
  Iter Callable {| behaviour := list_behaviour l; pulls := 0 |}.

Definition no_options : options := {| opt_compareFn := None; opt_extractFn := None |}.

(** ** The three-way sorted-merge comparison, as the specification words it *)

Definition left_record (a : val) : DiffRecord := {| value := a; exists_ := "left" |}.
Definition right_record (b : val) : DiffRecord := {| value := b; exists_ := "right" |}.
Definition both_record (a : val) : DiffRecord := {| value := a; exists_ := "both" |}.

(** Both heads present: EQUAL gives a [both] record and drops both heads,
    LESS gives a [left] record and drops the head of [A], GREATER gives a
    [right] record and drops the head of [B]; when one side is exhausted the
    other flows through in its order. *)
Fixpoint sorted_merge_compare (cmp : val -> val -> Z) (A : list val)
    : list val -> list DiffRecord :=
  fix against (B : list val) : list DiffRecord :=
    match A, B with
    | [], _ => map right_record B
    | _, [] => map left_record A
    | a :: A', b :: B' =>
        if cmp a b =? 0 then both_record a :: sorted_merge_compare cmp A' B'
        else if cmp a b <? 0 then left_record a :: sorted_merge_compare cmp A' B
        else right_record b :: against B'
    end.

Definition is_tag (t : string) (r : DiffRecord) : bool := String.eqb (exists_ r) t.

(** Values of the records carrying tag [t], in order. *)
Definition tagged (t : string) (res : list DiffRecord) : list val :=
  map value (filter (is_tag t) res).

(** The records that account for the left sequence ([left] and [both]) and
    for the right sequence ([right] and [both]). *)
Definition left_side (res : list DiffRecord) : list DiffRecord :=
  filter (fun r => negb (is_tag "right" r)) res.
Definition right_side (res : list DiffRecord) : list DiffRecord :=
  filter (fun r => negb (is_tag "left" r)) res.

(** How a record of the right side accounts for an element [b] of [B]: a
    [right] record carries [b] itself, a [both] record carries the element
    of [A] that compared equal to [b]. *)
Definition accounts_for (cmp : val -> val -> Z) (r : DiffRecord) (b : val) : Prop :=
  if is_tag "right" r then value r = b else cmp (value r) b = 0.

(** Number of elements of [L] that compare equal to [k]. *)
Definition count_equal (cmp : val -> val -> Z) (k : val) (L : list val) : nat :=
  length (filter (fun x => cmp x k =? 0) L).

(** Non-decreasing under the comparator. *)
Fixpoint non_decreasing (cmp : val -> val -> Z) (L : list val) : bool :=
  match L with
  | [] => true
  | x :: L' =>
      match L' with
      | [] => true
      | y :: _ => (cmp x y <=? 0) && non_decreasing cmp L'
      end
  end.

(** [x] may stand before the list [l]. *)
Definition head_le (cmp : val -> val -> Z) (x : val) (l : list val) : Prop :=
  match l with
  | [] => True
  | y :: _ => cmp x y <= 0
  end.

(** The comparator is consistent with a total preorder on the elements of
    [L]: swapping the arguments flips the sign, and [<=] is transitive. *)
Definition flips_on (cmp : val -> val -> Z) (L : list val) : bool :=
  forallb (fun x => forallb (fun y => Z.sgn (cmp y x) =? - Z.sgn (cmp x y)) L) L.

Definition transitive_on (cmp : val -> val -> Z) (L : list val) : bool :=
  forallb (fun x => forallb (fun y => forallb (fun z =>
    implb ((cmp x y <=? 0) && (cmp y z <=? 0)) (cmp x z <=? 0)) L) L) L.

Definition total_order_consistent (cmp : val -> val -> Z) (L : list val) : bool :=
  flips_on cmp L && transitive_on cmp L.

(** All the non-empty prefixes of a list, shortest first. *)
Definition nonempty_prefixes {X : Type} (l : list X) : list (list X) :=
  map (fun k => firstn k l) (seq 1 (length l)).

(** A host for the examples, whose [<] on operands of mixed types answers
    [false]. *)
Definition plain_host : val -> val -> result bool := fun _ _ => Ok false.

(** The natural order, as [defaultCmp] computes it with that host. *)
Definition natural (a b : val) : Z :=
  match defaultCmp plain_host a b with Ok (Number c) => c | _ => 0 end.

Definition is_NaN (v : val) : bool :=
  match v with VNum n => is_nan n | _ => false end.

(** ** States of a run with the default extractor *)

(** The instance while it runs: comparator [cf], the two sources after [k1]
    and [k2] calls, the records [acc], the waiting chains [q] and the
    notifications [ns]. *)
Definition running (cf : cmp_fn) (sh1 sh2 : shape) (beh1 beh2 : nat -> pull)
    (k1 k2 : nat) (acc : list DiffRecord) (q : list task)
    (ns : list (list DiffRecord)) : engine DiffRecord :=
  {| compareFn := cf; extractFn := defaultExtract; _deferred := Some Pending;
     _iter1 := Iter sh1 {| behaviour := beh1; pulls := k1 |};
     _iter2 := Iter sh2 {| behaviour := beh2; pulls := k2 |};
     _results := acc; queue := q; notified := ns |}.

(** The instance once it has resolved with [res]. *)
Definition finished (cf : cmp_fn) (sh1 sh2 : shape) (beh1 beh2 : nat -> pull)
    (k1 k2 : nat) (res : list DiffRecord) (ns : list (list DiffRecord))
    : engine DiffRecord :=
  {| compareFn := cf; extractFn := defaultExtract;
     _deferred := Some (Resolved res);
     _iter1 := Iter sh1 {| behaviour := beh1; pulls := k1 |};
     _iter2 := Iter sh2 {| behaviour := beh2; pulls := k2 |};
     _results := res; queue := []; notified := ns |}.

(** The value [v] the engine holds for one side, when the elements of that
    side still to be accounted for are [A] and the source has been called
    [k] times: [v] is the head of [A] and the source will deliver the rest,
    or [A] is empty and [v] is falsy. *)
Definition held (beh : nat -> pull) (k : nat) (v : val) (A : list val) : Prop :=
  match A with
  | [] => truthy v = false
  | a :: A' => v = a /\ truthy a = true /\ yields beh k A'
  end.

(** ** Reachable states *)

(** Between two turns of the event loop an instance that has been started
    is either idle (nothing waits) or waits on exactly one chain, its
    deferred still pending. *)
Definition idle_or_waiting {R : Type} (st : engine R) : Prop :=
  (queue st = [] /\ _deferred st <> None) \/
  ((exists t, queue st = [t]) /\ _deferred st = Some Pending).

(** The notifications sent while the accumulator grew to [l]: one for each
    record, carrying the list up to and including that record, and one
    carrying the list unchanged for each answer of the comparator that
    called for no record. *)
Inductive reports {X : Type} : list X -> list (list X) -> Prop :=
| reports_nothing : reports [] []
| reports_record l ns r : reports l ns -> reports (l ++ [r]) (ns ++ [l ++ [r]])
| reports_unchanged l ns : reports l ns -> reports l (ns ++ [l]).

(** ... and its notifications report its accumulator. *)
Definition well_formed {R : Type} (st : engine R) : Prop :=
  reports (_results st) (notified st) /\ idle_or_waiting st.

(** ** What a callback is given *)

(** The comparator never gives an unordered answer. *)
Definition ordered (c : cmp_fn) : Prop := forall a b, c a b <> Ok Unordered.

Section Causes.

Context {R : Type}.
Variables (c : cmp_fn) (x : extract_fn R).

(** What the values [v1] and [v2] handed to a callback call for: a record
    for both when both are there and the comparator answers [0]; a record
    for the left one when it is alone or the answer is negative; a record
    for the right one when it is alone or the answer is positive; no record
    when both are there and the answer is unordered. *)
Definition calls_both (v1 v2 : val) : Prop :=
  truthy v1 = true /\ truthy v2 = true /\ c v1 v2 = Ok (Number 0).

Definition calls_left (v1 v2 : val) : Prop :=
  truthy v1 = true /\
  (truthy v2 = false \/
   (truthy v2 = true /\ exists z, z < 0 /\ c v1 v2 = Ok (Number z))).

Definition calls_right (v1 v2 : val) : Prop :=
  truthy v2 = true /\
  (truthy v1 = false \/
   (truthy v1 = true /\ exists z, 0 < z /\ c v1 v2 = Ok (Number z))).

Definition calls_nothing (v1 v2 : val) : Prop :=
  truthy v1 = true /\ truthy v2 = true /\ c v1 v2 = Ok Unordered.

(** The record emitted for [v1] and [v2]: what the extractor returns for
    the call these values call for. *)
Definition emits (v1 v2 : val) (r : R) : Prop :=
  (calls_both v1 v2 /\ x v1 v2 0 = Ok r) \/
  (calls_left v1 v2 /\ x v1 VNull (-1) = Ok r) \/
  (calls_right v1 v2 /\ x VNull v2 1 = Ok r).

(** The callback given [v1] and [v2], with the sources [it1] and [it2],
    raises [e]: the comparator throws [e], or the extractor does on the
    call made, or a source does when it is called for the next value. *)
Inductive raises (it1 it2 : iterator) (v1 v2 : val) (e : error) : Prop :=
| comparator_raises :
    truthy v1 = true -> truthy v2 = true -> c v1 v2 = Throw e ->
    raises it1 it2 v1 v2 e
| extractor_raises_both :
    calls_both v1 v2 -> x v1 v2 0 = Throw e -> raises it1 it2 v1 v2 e
| extractor_raises_left :
    calls_left v1 v2 -> x v1 VNull (-1) = Throw e -> raises it1 it2 v1 v2 e
| extractor_raises_right :
    calls_right v1 v2 -> x VNull v2 1 = Throw e -> raises it1 it2 v1 v2 e
| first_pull_raises r :
    calls_both v1 v2 -> x v1 v2 0 = Ok r ->
    fst (callIter it1) = Throw e -> raises it1 it2 v1 v2 e
| second_pull_raises r p :
    calls_both v1 v2 -> x v1 v2 0 = Ok r ->
    fst (callIter it1) = Ok p -> fst (callIter it2) = Throw e ->
    raises it1 it2 v1 v2 e
| left_pull_raises r :
    calls_left v1 v2 -> x v1 VNull (-1) = Ok r ->
    fst (callIter it1) = Throw e -> raises it1 it2 v1 v2 e
| right_pull_raises r :
    calls_right v1 v2 -> x VNull v2 1 = Ok r ->
    fst (callIter it2) = Throw e -> raises it1 it2 v1 v2 e
| skipping_pull_raises :
    calls_nothing v1 v2 -> fst (callIter it2) = Throw e ->
    raises it1 it2 v1 v2 e.

End Causes.

(** The next turn of the event loop fails with [e]: the promise awaited is
    rejected with [e], or the callback raises [e]. *)
Definition turn_fails {R : Type} (st : engine R) (e : error) : Prop :=
  exists t q, queue st = t :: q /\
    (awaited t = Rejects2 e \/
     exists v1 v2, awaited t = Fulfils2 v1 v2 /\
       raises (compareFn st) (extractFn st) (_iter1 st) (_iter2 st) v1 v2 e).

(** ** Views of an instance used by the further properties *)



(** The deferred has been resolved or rejected. *)
Definition settled {R : Type} (st : engine R) : bool :=
  match _deferred st with
  | Some (Resolved _) | Some (Rejected _) => true
  | Some Pending | None => false
  end.

(** The provenance seen from the other side. *)
Definition swap_tag (t : string) : string :=
  if String.eqb t "left" then "right"
  else if String.eqb t "right" then "left"
  else t.

(** [r'] is the record [r] seen from the other side: the provenance is
    swapped; a [left] or [right] record carries the same value, a [both]
    record the equal element of the other source. *)
Definition mirrored (cmp : val -> val -> Z) (r r' : DiffRecord) : Prop :=
  exists_ r' = swap_tag (exists_ r) /\
  if String.eqb (exists_ r) "both" then cmp (value r) (value r') = 0
  else value r' = value r.

(** Strings, and numbers other than [NaN]. *)
Definition is_string (v : val) : bool :=
  match v with VStr _ => true | _ => false end.

Definition is_ordered_number (v : val) : bool :=
  match v with VNum n => negb (is_nan n) | _ => false end.

(** Strictly increasing under the comparator. *)
Fixpoint increasing (cmp : val -> val -> Z) (L : list val) : bool :=
  match L with
  | [] => true
  | x :: L' =>
      match L' with
      | [] => true
      | y :: _ => (cmp x y <? 0) && increasing cmp L'
      end
  end.

(** [L] has an element that compares equal to [x]. *)
Definition has_equal (cmp : val -> val -> Z) (L : list val) (x : val) : bool :=
  existsb (fun y => cmp x y =? 0) L.

(** The running instance of any comparator and extractor (see [running]). *)
Definition running_with {R : Type} (c : cmp_fn) (x : extract_fn R)
    (sh1 sh2 : shape) (beh1 beh2 : nat -> pull) (k1 k2 : nat) (acc : list R)
    (q : list task) (ns : list (list R)) : engine R :=
  {| compareFn := c; extractFn := x; _deferred := Some Pending;
     _iter1 := Iter sh1 {| behaviour := beh1; pulls := k1 |};
     _iter2 := Iter sh2 {| behaviour := beh2; pulls := k2 |};
     _results := acc; queue := q; notified := ns |}.

(** A record the extractor [x] builds in one of the three ways the engine
    calls it: [(v1, v2, 0)] with two truthy values, [(v1, null, -1)] or
    [(null, v2, 1)] with one truthy value. *)
Definition extractor_call {R : Type} (x : extract_fn R) (r : R) : Prop :=
  (exists v1 v2, truthy v1 = true /\ truthy v2 = true /\ x v1 v2 0 = Ok r) \/
  (exists v1, truthy v1 = true /\ x v1 VNull (-1) = Ok r) \/
  (exists v2, truthy v2 = true /\ x VNull v2 1 = Ok r).

(** ** Proof tools *)

Ltac unfold_methods :=
  unfold _compareValues, _addResult, _step, _stepBoth, _stepLeft, _stepRight,
    callIter1, callIter2, register, extract, push, notify, resolve, bind, ret,
    throw, gets, modify, callIter, invoke, wrap in *.

Ltac split_match :=
  match goal with
  | |- context [match ?x with _ => _ end] =>
      lazymatch x with
      | context [match _ with _ => _ end] => fail
      | _ => destruct x eqn:?
      end
  end.

Ltac by_cases := repeat (cbn in *; try split_match).

Ltac bool_facts :=
  repeat match goal with
    | H : _ && _ = true |- _ => apply andb_true_iff in H; destruct H
    | H : _ || _ = false |- _ => apply orb_false_iff in H; destruct H
    | H : negb _ = false |- _ => apply negb_false_iff in H
    | H : negb _ = true |- _ => apply negb_true_iff in H
    | H : (_ =? _) = true |- _ => apply Z.eqb_eq in H
    | H : (_ =? _) = false |- _ => apply Z.eqb_neq in H
    | H : (_ <? _) = true |- _ => apply Z.ltb_lt in H
    | H : (_ <? _) = false |- _ => apply Z.ltb_ge in H
    | H : (_ >? _) = true |- _ => rewrite Z.gtb_ltb in H
    | H : (_ >? _) = false |- _ => rewrite Z.gtb_ltb in H
    end.

Ltac absurd_case :=
  try congruence; try (exfalso; bool_facts; (congruence || lia)).

(** The methods unfolded down to the calls of the sources. *)
Ltac unfold_engine :=
  unfold _compareValues, _addResult, _step, _stepBoth, _stepLeft, _stepRight,
    callIter1, callIter2, register, extract, push, notify, resolve, bind, ret,
    throw, gets, modify in *.

Ltac sign_tests :=
  repeat match goal with
    | H : ?z < 0 |- context [?z =? 0] =>
        replace (z =? 0) with false by (symmetry; apply Z.eqb_neq; lia)
    | H : ?z < 0 |- context [?z <? 0] =>
        replace (z <? 0) with true by (symmetry; apply Z.ltb_lt; lia)
    | H : 0 < ?z |- context [?z =? 0] =>
        replace (z =? 0) with false by (symmetry; apply Z.eqb_neq; lia)
    | H : 0 < ?z |- context [?z <? 0] =>
        replace (z <? 0) with false by (symmetry; apply Z.ltb_ge; lia)
    | H : 0 < ?z |- context [?z >? 0] =>
        replace (z >? 0) with true
          by (symmetry; rewrite Z.gtb_ltb; apply Z.ltb_lt; lia)
    end.

(** Evaluation with the equations at hand. *)
Ltac by_facts :=
  repeat (cbn; sign_tests;
          try match goal with
              | H : ?a = _ |- context [?a] => rewrite H
              end).

(** The tests on the two values, where their outcome is known. *)
Ltac use_truthy :=
  repeat match goal with
    | T : truthy ?v = _, H : context [truthy ?v] |- _ => rewrite T in H
    end;
  cbn in *;
  rewrite ?andb_true_r, ?andb_false_r, ?orb_false_r, ?orb_true_r in *.

(** The outcome of a call of a source, where it is known. *)
Ltac use_pulls :=
  repeat match goal with
    | E : callIter ?i = _, P : context [fst (callIter ?i)] |- _ =>
        rewrite E in P; simpl in P
    end.

Ltac pull_fact :=
  match goal with
  | E : callIter ?i = _ |- fst (callIter ?i) = _ => rewrite E; reflexivity
  end.

(** What two values call for, from the facts at hand. *)
Ltac prove_call :=
  unfold calls_both, calls_left, calls_right, calls_nothing;
  repeat split; try assumption;
  solve [ left; assumption
        | right; split; [assumption | ];
          eexists; split; [ | eassumption]; lia ].

(** * Properties *)

(** ** The default comparator and extractor *)

Lemma strict_eq_refl (x : val) : is_NaN x = false -> strict_eq x x = true.
Proof.
  destruct x as [ | | b | n | s | r]; simpl; intros H; try reflexivity.
  - apply Bool.eqb_reflx.
  - unfold is_nan in H. now apply negb_false_iff in H.
  - apply String.eqb_refl.
  - apply Nat.eqb_refl.
Qed.

Lemma truthy_not_NaN (x : val) : truthy x = true -> is_NaN x = false.
Proof.
  destruct x; simpl; try reflexivity.
  intros H. apply negb_true_iff, orb_false_iff in H. apply H.
Qed.

(** C8, as stated: the default comparator is not reflexive on every value:
    [NaN === NaN] and [NaN < NaN] are both false, so [defaultCmp(NaN, NaN)]
    is [1]. *)
Lemma defaultCmp_NaN_not_equal :
  defaultCmp plain_host (VNum nan) (VNum nan) = Ok 1 /\
  defaultCmp plain_host (VNum nan) (VNum nan) <> Ok 0.
Proof. split; [reflexivity | discriminate]. Qed.

(** C8, amended: for every value [x] other than [NaN], [defaultCmp x x]
    returns EQUAL ([0]). *)
Theorem defaultCmp_reflexive (host_lt : val -> val -> result bool) (x : val) :
  is_NaN x = false -> defaultCmp host_lt x x = Ok 0.
Proof.
  intros H. unfold defaultCmp. now rewrite strict_eq_refl.
Qed.

Lemma defaultCmp_reflexive_witness :
  is_NaN (VStr "a") = false /\
  defaultCmp plain_host (VStr "a") (VStr "a") = Ok 0.
Proof.
  split; [reflexivity | apply (defaultCmp_reflexive _ (VStr "a")); reflexivity].
Defined.

(** ** The methods, one call at a time *)

Section EngineFacts.

Context {R : Type}.
Implicit Types st : engine R.

(** What one call of [_compareValues] does to a running instance: it adds
    at most one record, and then notifies once with the whole list (also
    when an unordered answer gave no record); it ends by registering one
    chain, by resolving (both values falsy), or by throwing. *)
Lemma compareValues_cases (v1 v2 : val) st :
  _deferred st = Some Pending ->
  let r := fst (_compareValues v1 v2 st) in
  let st' := snd (_compareValues v1 v2 st) in
  compareFn st' = compareFn st /\ extractFn st' = extractFn st /\
  ((_results st' = _results st /\ notified st' = notified st) \/
   (exists rec, _results st' = _results st ++ [rec] /\
                notified st' = notified st ++ [_results st ++ [rec]]) \/
   (_results st' = _results st /\ notified st' = notified st ++ [_results st] /\
    calls_nothing (compareFn st) v1 v2)) /\
  match r with
  | Ok _ =>
      (exists t, queue st' = queue st ++ [t] /\ _deferred st' = Some Pending) \/
      (st' = set_deferred (Some (Resolved (_results st))) st /\
       truthy v1 = false /\ truthy v2 = false)
  | Throw e => queue st' = queue st /\ _deferred st' = Some Pending
  end.
Proof.
  intros H. destruct st as [c x d i1 i2 res q ns]. simpl in H. subst d.
  unfold calls_nothing. unfold_methods.
  by_cases; absurd_case; repeat split; eauto;
    try (right; left; eexists; split; reflexivity);
    try (right; right; bool_facts; repeat split; reflexivity || assumption).
Qed.

(** No method touches the comparator or the extractor of the instance. *)
Lemma compareValues_functions (v1 v2 : val) st :
  compareFn (snd (_compareValues v1 v2 st)) = compareFn st /\
  extractFn (snd (_compareValues v1 v2 st)) = extractFn st.
Proof.
  destruct st as [c x d i1 i2 res q ns]. unfold_methods.
  by_cases; split; reflexivity.
Qed.

End EngineFacts.

(** ** Lists of prefixes *)

Lemma nonempty_prefixes_snoc {X : Type} (l : list X) (r : X) :
  nonempty_prefixes (l ++ [r]) = nonempty_prefixes l ++ [l ++ [r]].
Proof.
  unfold nonempty_prefixes.
  rewrite length_app. simpl length.
  rewrite seq_app, map_app. simpl. f_equal.
  - apply map_ext_in. intros k Hk. apply in_seq in Hk.
    rewrite firstn_app. replace (k - length l)%nat with 0%nat by lia.
    simpl. apply app_nil_r.
  - f_equal. apply (firstn_all2 (n := S (length l))).
    rewrite length_app. simpl. lia.
Qed.

Section Reachable.

Context {R : Type}.
Implicit Types st : engine R.

Lemma run_tick n st : run (S n) st = run n (tick st).
Proof. reflexivity. Qed.

Lemma run_add n m st : run (n + m) st = run m (run n st).
Proof. revert st. induction n; intros st; simpl; auto. Qed.

Lemma tick_idle st : queue st = [] -> tick st = st.
Proof. unfold tick. now intros ->. Qed.

Lemma run_idle n st : queue st = [] -> run n st = st.
Proof. intros H. induction n; simpl; auto. now rewrite tick_idle. Qed.

Lemma started_well_formed (c : cmp_fn) (x : extract_fn R) (it1 it2 : iterator) :
  well_formed (started c x it1 it2).
Proof.
  unfold started, compare, create, well_formed, idle_or_waiting.
  unfold_methods.
  by_cases; (split; [constructor | ]);
    solve [ left; split; [reflexivity | discriminate]
          | right; split; [eexists; reflexivity | reflexivity] ].
Qed.

Lemma reject_well_formed e st :
  reports (_results st) (notified st) ->
  queue st = [] -> _deferred st <> None ->
  well_formed (reject e st).
Proof.
  intros Hn Hq Hd. unfold reject.
  destruct (_deferred st) as [[ | | ] | ] eqn:E; split; auto; left; split; auto.
  - discriminate.
  - congruence.
  - congruence.
Qed.

Lemma callback_well_formed (v1 v2 : val) st :
  reports (_results st) (notified st) ->
  queue st = [] -> _deferred st = Some Pending ->
  well_formed (callback (_compareValues v1 v2) st).
Proof.
  intros Hn Hq Hd.
  destruct (compareValues_cases v1 v2 st Hd) as (_ & _ & Hres & Hctl).
  unfold callback.
  destruct (_compareValues v1 v2 st) as [[u | e] st'] eqn:E; simpl in *.
  - assert (Hn' : reports (_results st') (notified st')).
    { destruct Hres as [[-> ->] | [(r & -> & ->) | (-> & -> & _)]]; auto;
        now constructor. }
    destruct Hctl as [(t & Ht & Hp) | (-> & _)].
    + split; auto. right. rewrite Hq in Ht. eauto.
    + split; auto. left. simpl. split; [auto | discriminate].
  - destruct Hctl as [Hq' Hp]. apply reject_well_formed.
    + destruct Hres as [[-> ->] | [(r & -> & ->) | (-> & -> & _)]]; auto;
        now constructor.
    + congruence.
    + congruence.
Qed.

Lemma tick_well_formed st : well_formed st -> well_formed (tick st).
Proof.
  intros [Hn Hs]. unfold tick.
  destruct Hs as [[Hq Hd] | [(t & Hq) Hd]]; rewrite Hq.
  - split; auto. left; auto.
  - assert (Hd' : _deferred (set_queue [] st) <> None)
      by (simpl; congruence).
    unfold run_task. destruct (awaited t).
    + now apply callback_well_formed.
    + now apply reject_well_formed.
Qed.

Lemma run_well_formed n st : well_formed st -> well_formed (run n st).
Proof.
  revert st. induction n; intros st H; simpl; auto using tick_well_formed.
Qed.

Lemma reject_functions e st :
  compareFn (reject e st) = compareFn st /\ extractFn (reject e st) = extractFn st.
Proof. unfold reject. now destruct (_deferred st) as [[ | | ] | ]. Qed.

Lemma tick_functions st :
  compareFn (tick st) = compareFn st /\ extractFn (tick st) = extractFn st.
Proof.
  unfold tick. destruct (queue st) as [ | t q]; [split; reflexivity | ].
  unfold run_task. destruct (awaited t) as [v1 v2 | e].
  - unfold callback.
    pose proof (compareValues_functions v1 v2 (set_queue q st)) as F.
    destruct (_compareValues v1 v2 (set_queue q st)) as [[u | e] st'];
      simpl in F; [exact F | ].
    destruct (reject_functions e st') as [-> ->]. exact F.
  - destruct (reject_functions e (set_queue q st)) as [-> ->].
    split; reflexivity.
Qed.

Lemma run_functions n st :
  compareFn (run n st) = compareFn st /\ extractFn (run n st) = extractFn st.
Proof.
  revert st. induction n as [ | n IH]; intros st; simpl; [split; reflexivity | ].
  destruct (IH (tick st)) as [-> ->]. apply tick_functions.
Qed.

Lemma started_functions (c : cmp_fn) (x : extract_fn R) (it1 it2 : iterator) :
  compareFn (started c x it1 it2) = c /\ extractFn (started c x it1 it2) = x.
Proof.
  unfold started, compare, create. unfold_methods. by_cases; split; reflexivity.
Qed.

(** The comparator and the extractor of a run are those the instance was
    created with. *)
Lemma reachable_functions (c : cmp_fn) (x : extract_fn R) (it1 it2 : iterator) n :
  compareFn (run n (started c x it1 it2)) = c /\
  extractFn (run n (started c x it1 it2)) = x.
Proof.
  destruct (run_functions n (started c x it1 it2)) as [-> ->].
  apply started_functions.
Qed.

End Reachable.

(** ** Single use of an instance *)

Section SingleUse.

Context {R : Type}.
Implicit Types st : engine R.

Lemma well_formed_deferred st : well_formed st -> _deferred st <> None.
Proof. intros [_ [[_ H] | [_ H]]]; congruence. Qed.

Lemma compare_busy (it1 it2 : iterator) st :
  _deferred st <> None -> compare it1 it2 st = (Throw AlreadyComparingError, st).
Proof.
  intros H. unfold compare, bind, gets, throw.
  destruct (_deferred st); [reflexivity | contradiction].
Qed.

(** C2: on an instance on which [compare] has been called, at any later
    time (in particular before the first call has resolved), a second
    call throws [AlreadyComparingError] at once, leaves the whole instance
    as it was, and the first comparison goes on to the same states. *)
Theorem second_compare_fails (c : cmp_fn) (x : extract_fn R)
    (it1 it2 it1' it2' : iterator) (n : nat) :
  let st := run n (started c x it1 it2) in
  compare it1' it2' st = (Throw AlreadyComparingError, st) /\
  forall m, run m (snd (compare it1' it2' st)) = run m st.
Proof.
  intros st.
  assert (H : compare it1' it2' st = (Throw AlreadyComparingError, st)).
  { apply compare_busy, well_formed_deferred, run_well_formed,
      started_well_formed. }
  split; [exact H | intros m; now rewrite H].
Qed.

(** C10: when the first call of [compare] throws
    [InvalidSourceShapeError], the deferred has been created and stays
    pending for ever (the error went to the caller, the promise is not
    rejected), nothing waits in the event loop and no record or
    notification exists, yet every later call of [compare] throws
    [AlreadyComparingError]. *)
Theorem invalid_shape_thrown_to_caller (c : cmp_fn) (x : extract_fn R)
    (it1 it2 : iterator) :
  fst (compare it1 it2 (create c x)) = Throw InvalidSourceShapeError ->
  let st := started c x it1 it2 in
  _deferred st = Some Pending /\
  queue st = [] /\ _results st = [] /\ notified st = [] /\
  (forall n, run n st = st) /\
  (forall it1' it2' n,
      compare it1' it2' (run n st) = (Throw AlreadyComparingError, st)).
Proof.
  intros H st.
  assert (Hq : queue st = [] /\ _deferred st = Some Pending /\
               _results st = [] /\ notified st = []).
  { subst st. revert H. unfold started, compare, create. unfold_methods.
    by_cases; intros; absurd_case; auto. }
  destruct Hq as (Hq & Hd & Hr & Hn).
  repeat split; auto using run_idle.
  intros it1' it2' n. rewrite run_idle by assumption.
  apply compare_busy. congruence.
Qed.

End SingleUse.

Lemma invalid_shape_thrown_to_caller_witness :
  fst (compare IterOther (of_list []) (create (defaultCmp plain_host) defaultExtract))
    = Throw InvalidSourceShapeError /\
  _deferred (started (defaultCmp plain_host) defaultExtract
               IterOther (of_list [])) = Some Pending.
Proof.
  split; [reflexivity | ].
  apply (invalid_shape_thrown_to_caller
           (defaultCmp plain_host) defaultExtract IterOther (of_list [])).
  reflexivity.
Defined.

(** ** Invalid sources *)

(** C4, as stated: with a valid first source and a second one of invalid
    shape, [compare] fails with [InvalidSourceShapeError] only after the
    first source has been pulled once. *)
Lemma invalid_second_source_after_a_pull :
  let c := defaultCmp plain_host in
  let it1 := of_list [VNum 1] in
  fst (compare it1 IterOther (create c defaultExtract))
    = Throw InvalidSourceShapeError /\
  pulled it1 = 0%nat /\
  pulled (_iter1 (started c defaultExtract it1 IterOther)) = 1%nat.
Proof. repeat split. Qed.

(** A source that is [null] or [undefined] fails with the [TypeError] of
    the property access, not with [InvalidSourceShapeError]. *)
Lemma nullish_source_type_error :
  fst (compare IterNullish (of_list [])
         (create (defaultCmp plain_host) defaultExtract))
    = Throw NullishAccess.
Proof. reflexivity. Qed.

(** C4, amended: a source that is neither a function nor an object with a
    [next] method (and is not [null]/[undefined]) makes [compare] throw
    [InvalidSourceShapeError] at once.  If it is the first source, no pull
    has occurred on either source; if it is the second one and the call of
    the first source returned, the first source has been pulled exactly
    once and the second not at all. *)
Theorem invalid_shape_fails {R : Type} (c : cmp_fn) (x : extract_fn R)
    (it1 it2 : iterator) :
  let r := fst (compare it1 it2 (create c x)) in
  let st := started c x it1 it2 in
  (it1 = IterOther ->
     r = Throw InvalidSourceShapeError /\ _iter1 st = it1 /\ _iter2 st = it2) /\
  (forall sh s p, it1 = Iter sh s -> wrap (behaviour s (pulls s)) = Ok p ->
     it2 = IterOther ->
     r = Throw InvalidSourceShapeError /\
     pulled (_iter1 st) = S (pulled it1) /\ _iter2 st = it2).
Proof.
  split.
  - intros ->. repeat split.
  - intros sh s p -> Hp ->.
    unfold started, compare, create. unfold_methods. cbn.
    unfold wrap in Hp. destruct sh; cbn; rewrite Hp; cbn; repeat split.
Qed.

Lemma invalid_shape_fails_witness :
  let c := defaultCmp plain_host in
  (fst (compare IterOther (of_list [VNum 1]) (create c defaultExtract))
     = Throw InvalidSourceShapeError /\
   pulled (_iter2 (started c defaultExtract IterOther (of_list [VNum 1]))) = 0%nat) /\
  (fst (compare (of_list [VNum 1]) IterOther (create c defaultExtract))
     = Throw InvalidSourceShapeError /\
   pulled (_iter1 (started c defaultExtract (of_list [VNum 1]) IterOther)) = 1%nat).
Proof.
  intros c. split.
  - destruct (invalid_shape_fails c defaultExtract IterOther (of_list [VNum 1]))
      as [H _].
    destruct (H eq_refl) as (Hr & _ & H2). split; [exact Hr | now rewrite H2].
  - destruct (invalid_shape_fails c defaultExtract (of_list [VNum 1]) IterOther)
      as [_ H].
    destruct (H Callable _ _ eq_refl eq_refl eq_refl) as (Hr & H1 & _).
    split; [exact Hr | exact H1].
Defined.

(** ** Empty sources *)

(** Both ways of calling a source come to the same: the [pulls s]-th
    outcome of its behaviour, made a promise, and one more call counted. *)
Lemma callIter_Iter (sh : shape) (s : source) :
  callIter (Iter sh s) =
  (wrap (behaviour s (pulls s)),
   Iter sh {| behaviour := behaviour s; pulls := S (pulls s) |}).
Proof. now destruct sh. Qed.

(** Evaluation of the methods on an instance whose sources are known, with
    the equations at hand. *)
Ltac by_steps :=
  unfold defaultExtract; unfold_engine;
  repeat (cbn; sign_tests; rewrite ?callIter_Iter;
          try match goal with
              | H : ?a = _ |- context [?a] => rewrite H
              end).

Lemma delivered_wrap (o : pull) (v : val) :
  delivered o = Some v -> exists p, wrap o = Ok p /\ outcome p = Fulfils v.
Proof.
  destruct o as [w | p | e]; simpl; intros H.
  - injection H as ->. eexists; split; reflexivity.
  - destruct (outcome p) eqn:E; [ | discriminate].
    injection H as ->. eexists; split; eauto.
  - discriminate.
Qed.

(** C7: when the first pull of each source delivers a falsy value (both
    sources empty), the first turn of the event loop resolves the
    comparison with the empty list, no progress notification has been sent,
    and nothing is left to run. *)
Theorem both_empty_resolve_empty {R : Type} (c : cmp_fn) (x : extract_fn R)
    (sh1 sh2 : shape) (beh1 beh2 : nat -> pull) (n : nat) :
  yields beh1 0 [] -> yields beh2 0 [] ->
  let st0 := started c x (Iter sh1 {| behaviour := beh1; pulls := 0 |})
                         (Iter sh2 {| behaviour := beh2; pulls := 0 |}) in
  let st := run (S n) st0 in
  notified st0 = [] /\ _deferred st0 = Some Pending /\
  _deferred st = Some (Resolved []) /\ notified st = [] /\ queue st = [].
Proof.
  intros (v1 & H1 & F1) (v2 & H2 & F2) st0 st.
  destruct (delivered_wrap _ _ H1) as (p1 & W1 & O1).
  destruct (delivered_wrap _ _ H2) as (p2 & W2 & O2).
  assert (E : tick st0 =
              {| compareFn := c; extractFn := x;
                 _deferred := Some (Resolved []);
                 _iter1 := Iter sh1 {| behaviour := beh1; pulls := 1 |};
                 _iter2 := Iter sh2 {| behaviour := beh2; pulls := 1 |};
                 _results := []; queue := []; notified := [] |}).
  { subst st0. unfold started, compare, create, tick. unfold_methods.
    unfold wrap in W1, W2.
    destruct sh1, sh2; cbn; rewrite W1, W2; cbn;
      unfold run_task, awaited, all; rewrite O1, O2;
      unfold callback; unfold_methods; cbn; rewrite F1, F2; reflexivity. }
  assert (E0 : notified st0 = [] /\ _deferred st0 = Some Pending).
  { subst st0. unfold started, compare, create. unfold_methods.
    unfold wrap in W1, W2.
    destruct sh1, sh2; cbn; rewrite W1, W2; cbn; split; reflexivity. }
  subst st. rewrite run_tick, E, run_idle by reflexivity.
  destruct E0. repeat split; assumption.
Qed.

Lemma both_empty_resolve_empty_witness :
  _deferred (run 1 (started (defaultCmp plain_host) defaultExtract
                      (of_list []) (of_list []))) = Some (Resolved []).
Proof.
  apply (both_empty_resolve_empty (defaultCmp plain_host)
           defaultExtract Callable Callable
           (list_behaviour []) (list_behaviour []) 0).
  - exists VUndefined. split; reflexivity.
  - exists VUndefined. split; reflexivity.
Defined.

(** ** The accumulator and the progress notifications *)

Lemma snoc_split {X : Type} (ns : list X) (new : X) ns1 p ns2 q ns3 :
  ns ++ [new] = ns1 ++ p :: ns2 ++ q :: ns3 ->
  (q = new /\ ns = ns1 ++ p :: ns2) \/
  (exists ns3', ns = ns1 ++ p :: ns2 ++ q :: ns3').
Proof.
  destruct ns3 as [ | z ns3] using rev_ind; intros E.
  - left.
    replace (ns1 ++ p :: ns2 ++ [q]) with ((ns1 ++ p :: ns2) ++ [q]) in E
      by (rewrite <- app_assoc; reflexivity).
    apply app_inj_tail in E. destruct E as [-> ->]. auto.
  - right. exists ns3.
    replace (ns1 ++ p :: ns2 ++ q :: ns3 ++ [z])
      with ((ns1 ++ p :: ns2 ++ q :: ns3) ++ [z]) in E
      by (repeat (rewrite <- app_assoc; simpl); reflexivity).
    apply app_inj_tail in E. apply E.
Qed.

Section Reports.

Context {X : Type}.
Implicit Types (l p q : list X) (ns : list (list X)).

(** Every notification carried a prefix of the accumulator: nothing that
    was reported has been retracted. *)
Lemma reports_prefixes l ns :
  reports l ns -> Forall (fun p => exists l', l = p ++ l') ns.
Proof.
  induction 1 as [ | l ns r H IH | l ns H IH].
  - constructor.
  - apply Forall_app. split.
    + eapply Forall_impl; [ | exact IH]. intros p (l' & ->).
      exists (l' ++ [r]). now rewrite app_assoc.
    + constructor; [ | constructor]. exists []. now rewrite app_nil_r.
  - apply Forall_app. split; [exact IH | ].
    constructor; [ | constructor]. exists []. now rewrite app_nil_r.
Qed.

(** Each record has been notified, with the list up to and including it. *)
Lemma reports_records l ns :
  reports l ns -> forall k, (k < length l)%nat -> In (firstn (S k) l) ns.
Proof.
  induction 1 as [ | l ns r H IH | l ns H IH]; intros k Hk.
  - simpl in Hk. lia.
  - rewrite length_app in Hk. simpl in Hk. apply in_or_app.
    destruct (Nat.eq_dec k (length l)) as [-> | N].
    + right. left. symmetry. apply firstn_all2. rewrite length_app. simpl. lia.
    + left. rewrite firstn_app. replace (S k - length l)%nat with 0%nat by lia.
      simpl. rewrite app_nil_r. apply IH. lia.
  - apply in_or_app. left. auto.
Qed.

(** Of two notifications, the later one carries the list of the earlier
    one, possibly with more records at its end. *)
Lemma reports_growing l ns :
  reports l ns ->
  forall ns1 p ns2 q ns3, ns = ns1 ++ p :: ns2 ++ q :: ns3 ->
    exists l', q = p ++ l'.
Proof.
  induction 1 as [ | l ns r H IH | l ns H IH]; intros ns1 p ns2 q ns3 E.
  - destruct ns1; discriminate.
  - destruct (snoc_split _ _ _ _ _ _ _ E) as [[-> ->] | (ns3' & ->)].
    + pose proof (reports_prefixes _ _ H) as F.
      rewrite Forall_forall in F.
      destruct (F p) as (l' & ->); [apply in_or_app; right; now left | ].
      exists (l' ++ [r]). now rewrite app_assoc.
    + eapply IH. reflexivity.
  - destruct (snoc_split _ _ _ _ _ _ _ E) as [[-> ->] | (ns3' & ->)].
    + pose proof (reports_prefixes _ _ H) as F.
      rewrite Forall_forall in F.
      apply (F p). apply in_or_app. right. now left.
    + eapply IH. reflexivity.
Qed.

End Reports.

Section Progress.

Context {R : Type}.
Implicit Types st : engine R.

Lemma reject_results e st : _results (reject e st) = _results st.
Proof. unfold reject. now destruct (_deferred st) as [[ | | ] | ]. Qed.

Lemma reject_notified e st : notified (reject e st) = notified st.
Proof. unfold reject. now destruct (_deferred st) as [[ | | ] | ]. Qed.

Lemma tick_appends st :
  well_formed st -> exists l, _results (tick st) = _results st ++ l.
Proof.
  intros [_ [[Hq _] | [(t & Hq) Hd]]].
  - rewrite tick_idle by assumption. exists []. now rewrite app_nil_r.
  - unfold tick, run_task. rewrite Hq.
    destruct (awaited t) as [v1 v2 | e].
    + assert (Hd' : _deferred (set_queue [] st) = Some Pending) by exact Hd.
      destruct (compareValues_cases v1 v2 _ Hd') as (_ & _ & Hres & _).
      unfold callback.
      destruct (_compareValues v1 v2 (set_queue [] st)) as [[u | e] st'];
        simpl in *; try rewrite reject_results;
        (destruct Hres as [[-> _] | [(r & -> & _) | (-> & _)]];
         [exists []; now rewrite app_nil_r | now exists [r]
         | exists []; now rewrite app_nil_r]).
    + rewrite reject_results. exists []. now rewrite app_nil_r.
Qed.

Lemma run_appends n st :
  well_formed st -> exists l, _results (run n st) = _results st ++ l.
Proof.
  revert st. induction n; intros st H; simpl.
  - exists []. now rewrite app_nil_r.
  - destruct (tick_appends st H) as (l1 & E1).
    destruct (IHn (tick st) (tick_well_formed st H)) as (l2 & E2).
    exists (l1 ++ l2). now rewrite E2, E1, app_assoc.
Qed.

Lemma nth_nonempty_prefixes (l : list R) (k : nat) :
  (k < length l)%nat -> nth k (nonempty_prefixes l) [] = firstn (S k) l.
Proof.
  intros H. unfold nonempty_prefixes.
  rewrite (nth_indep _ [] (firstn 0 l))
    by (now rewrite length_map, length_seq).
  rewrite (map_nth (fun k => firstn k l)), seq_nth by assumption.
  reflexivity.
Qed.

(** The record a callback emits is appended, and notified once with the
    list it completes, whatever the pull that follows does. *)
Lemma compareValues_emits (v1 v2 : val) (r : R) st :
  _deferred st = Some Pending ->
  emits (compareFn st) (extractFn st) v1 v2 r ->
  let st' := snd (_compareValues v1 v2 st) in
  _results st' = _results st ++ [r] /\
  notified st' = notified st ++ [_results st ++ [r]].
Proof.
  intros H E. destruct st as [c x d i1 i2 res q ns]. simpl in *. subst d.
  unfold_engine. cbn.
  destruct (callIter i1) as [[p1 | e1] j1] eqn:E1;
    destruct (callIter i2) as [[p2 | e2] j2] eqn:E2;
    destruct E as [((T1 & T2 & C) & X)
                  | [((T1 & [T2 | (T2 & z & Z & C)]) & X)
                    | ((T2 & [T1 | (T1 & z & Z & C)]) & X)]];
    by_facts; split; reflexivity.
Qed.

(** An unordered answer emits no record; the callback still notifies,
    with the list unchanged. *)
Lemma compareValues_skips (v1 v2 : val) st :
  _deferred st = Some Pending ->
  calls_nothing (compareFn st) v1 v2 ->
  let st' := snd (_compareValues v1 v2 st) in
  _results st' = _results st /\ notified st' = notified st ++ [_results st].
Proof.
  intros H (T1 & T2 & C). destruct st as [c x d i1 i2 res q ns].
  simpl in *. subst d. unfold_engine. cbn.
  destruct (callIter i2) as [[p2 | e2] j2] eqn:E2; by_facts; split; reflexivity.
Qed.

Lemma tick_callback t q (v1 v2 : val) st :
  well_formed st -> queue st = t :: q -> awaited t = Fulfils2 v1 v2 ->
  _deferred (set_queue q st) = Some Pending /\
  tick st = callback (_compareValues v1 v2) (set_queue q st).
Proof.
  intros [_ [[Hq _] | [_ Hd]]] Q A; [congruence | ].
  split; [exact Hd | ]. unfold tick, run_task. now rewrite Q, A.
Qed.

Lemma callback_progress (v1 v2 : val) st :
  _results (callback (_compareValues v1 v2) st)
    = _results (snd (_compareValues v1 v2 st)) /\
  notified (callback (_compareValues v1 v2) st)
    = notified (snd (_compareValues v1 v2 st)).
Proof.
  unfold callback. destruct (_compareValues v1 v2 st) as [[u | e] st']; simpl.
  - split; reflexivity.
  - now rewrite reject_results, reject_notified.
Qed.

(** With a comparator whose answers are ordered, the notifications are
    exactly the non-empty prefixes of the accumulator. *)
Lemma tick_exact st :
  well_formed st -> ordered (compareFn st) ->
  notified st = nonempty_prefixes (_results st) ->
  notified (tick st) = nonempty_prefixes (_results (tick st)).
Proof.
  intros [_ [[Hq _] | [(t & Hq) Hd]]] Ho Hn.
  - now rewrite tick_idle.
  - unfold tick, run_task. rewrite Hq.
    destruct (awaited t) as [v1 v2 | e].
    + assert (Hd' : _deferred (set_queue [] st) = Some Pending) by exact Hd.
      destruct (compareValues_cases v1 v2 _ Hd') as (_ & _ & Hres & _).
      destruct (callback_progress v1 v2 (set_queue [] st)) as [-> ->].
      simpl in Hres.
      destruct Hres as [[-> ->] | [(r & -> & ->) | (_ & _ & _ & _ & U)]].
      * exact Hn.
      * now rewrite nonempty_prefixes_snoc, Hn.
      * now apply Ho in U.
    + now rewrite reject_results, reject_notified.
Qed.

Lemma run_exact n st :
  well_formed st -> ordered (compareFn st) ->
  notified st = nonempty_prefixes (_results st) ->
  notified (run n st) = nonempty_prefixes (_results (run n st)).
Proof.
  revert st. induction n as [ | n IH]; intros st W Ho Hn; simpl; [exact Hn | ].
  apply IH.
  - now apply tick_well_formed.
  - now destruct (tick_functions st) as [-> _].
  - now apply tick_exact.
Qed.

(** When [compare] returns the accumulator is empty and nothing has been
    notified. *)
Lemma started_empty (c : cmp_fn) (x : extract_fn R) (it1 it2 : iterator) :
  _results (started c x it1 it2) = [] /\ notified (started c x it1 it2) = [].
Proof.
  unfold started, compare, create. unfold_methods. by_cases; split; reflexivity.
Qed.

Lemma reachable_exact (c : cmp_fn) (x : extract_fn R) (it1 it2 : iterator) n :
  ordered c ->
  notified (run n (started c x it1 it2))
    = nonempty_prefixes (_results (run n (started c x it1 it2))).
Proof.
  intros Ho. apply run_exact.
  - apply started_well_formed.
  - now destruct (started_functions c x it1 it2) as [-> _].
  - now destruct (started_empty c x it1 it2) as [-> ->].
Qed.

(** C6: in every run and at every time,
    - the record emitted by the next turn of the event loop (what the
      extractor returns for the call the awaited values call for) is
      appended at the end of the accumulator, and exactly one notification
      is sent for it, carrying the accumulator with that record;
    - an unordered answer of the comparator emits no record, and one
      notification goes out carrying the accumulator unchanged;
    - each record of the accumulator has been notified with the list up to
      and including it; of two notifications the later carries the list
      of the earlier, possibly grown at its end, and every notification
      carried a prefix of the present accumulator;
    - the accumulator of any later state extends the present one at its
      end;
    - when the comparator gives ordered answers only, the notifications
      are exactly the non-empty prefixes of the accumulator, shortest
      first: one for each record. *)
Theorem progress_follows_accumulator (c : cmp_fn) (x : extract_fn R)
    (it1 it2 : iterator) (n : nat) :
  let st := run n (started c x it1 it2) in
  (forall t q v1 v2 r, queue st = t :: q -> awaited t = Fulfils2 v1 v2 ->
     emits c x v1 v2 r ->
     _results (tick st) = _results st ++ [r] /\
     notified (tick st) = notified st ++ [_results st ++ [r]]) /\
  (forall t q v1 v2, queue st = t :: q -> awaited t = Fulfils2 v1 v2 ->
     calls_nothing c v1 v2 ->
     _results (tick st) = _results st /\
     notified (tick st) = notified st ++ [_results st]) /\
  (forall k, (k < length (_results st))%nat ->
     In (firstn (S k) (_results st)) (notified st)) /\
  (forall ns1 p ns2 q ns3, notified st = ns1 ++ p :: ns2 ++ q :: ns3 ->
     exists l, q = p ++ l) /\
  Forall (fun p => exists l, _results st = p ++ l) (notified st) /\
  (forall m, exists l, _results (run m st) = _results st ++ l) /\
  (ordered c ->
     notified st = nonempty_prefixes (_results st) /\
     length (notified st) = length (_results st) /\
     (forall k, (k < length (_results st))%nat ->
        nth k (notified st) [] = firstn (S k) (_results st))).
Proof.
  intros st.
  assert (W : well_formed st)
    by apply run_well_formed, started_well_formed.
  destruct (reachable_functions c x it1 it2 n) as [Fc Fx].
  fold st in Fc, Fx.
  split; [ | split; [ | split; [ | split; [ | split; [ | split]]]]].
  - intros t q v1 v2 r Q A E.
    destruct (tick_callback t q v1 v2 st W Q A) as [Hd ->].
    destruct (callback_progress v1 v2 (set_queue q st)) as [-> ->].
    apply (compareValues_emits v1 v2 r (set_queue q st) Hd).
    simpl. now rewrite Fc, Fx.
  - intros t q v1 v2 Q A E.
    destruct (tick_callback t q v1 v2 st W Q A) as [Hd ->].
    destruct (callback_progress v1 v2 (set_queue q st)) as [-> ->].
    apply (compareValues_skips v1 v2 (set_queue q st) Hd).
    simpl. now rewrite Fc.
  - apply reports_records, W.
  - apply (reports_growing (_results st)), W.
  - apply reports_prefixes, W.
  - intros m. now apply run_appends.
  - intros Ho.
    assert (Hn : notified st = nonempty_prefixes (_results st))
      by now apply reachable_exact.
    split; [exact Hn | ]. split.
    + rewrite Hn. unfold nonempty_prefixes. now rewrite length_map, length_seq.
    + intros k Hk. rewrite Hn. now apply nth_nonempty_prefixes.
Qed.

End Progress.

Lemma progress_follows_accumulator_witness :
  let st := started (defaultCmp plain_host) defaultExtract
              (of_list [VNum 1]) (of_list [VNum 2]) in
  emits (defaultCmp plain_host) defaultExtract (VNum 1) (VNum 2)
    (left_record (VNum 1)) /\
  _results (tick st) = [left_record (VNum 1)] /\
  notified (tick st) = [[left_record (VNum 1)]].
Proof.
  intros st.
  assert (E : emits (defaultCmp plain_host) defaultExtract (VNum 1) (VNum 2)
                (left_record (VNum 1))).
  { right. left. split; [ | reflexivity].
    split; [reflexivity | right]. split; [reflexivity | ].
    exists (-1). split; [lia | reflexivity]. }
  split; [exact E | ].
  destruct (progress_follows_accumulator (defaultCmp plain_host) defaultExtract
              (of_list [VNum 1]) (of_list [VNum 2]) 0) as [H _].
  apply (H (ThenBoth {| delay := 0; outcome := Fulfils (VNum 1) |}
                     {| delay := 0; outcome := Fulfils (VNum 2) |})
           [] (VNum 1) (VNum 2) (left_record (VNum 1)));
    [reflexivity | reflexivity | exact E].
Defined.

(** The default comparator gives ordered answers only. *)
Lemma defaultCmp_ordered (host_lt : val -> val -> result bool) :
  ordered (defaultCmp host_lt).
Proof.
  intros a b. unfold defaultCmp.
  destruct (strict_eq a b); [discriminate | ].
  destruct (js_lt host_lt a b); discriminate.
Qed.

(** ** Failures *)

Section Failures.

Context {R : Type}.
Implicit Types st : engine R.


(** Each cause makes the callback throw: a throw of the comparator, of the
    extractor on the call made, or of a source called for the next value,
    is a throw of [_compareValues] ... *)
Lemma raises_throws (v1 v2 : val) (e : error) st :
  _deferred st = Some Pending ->
  raises (compareFn st) (extractFn st) (_iter1 st) (_iter2 st) v1 v2 e ->
  fst (_compareValues v1 v2 st) = Throw e.
Proof.
  intros H. destruct st as [c x d i1 i2 res q ns]. simpl in *. subst d.
  unfold_engine. cbn.
  destruct (callIter i1) as [r1 j1] eqn:E1;
    destruct (callIter i2) as [r2 j2] eqn:E2.
  intros [T1 T2 C
         | (T1 & T2 & C) X
         | (T1 & [T2 | (T2 & z & Z & C)]) X
         | (T2 & [T1 | (T1 & z & Z & C)]) X
         | r (T1 & T2 & C) X P1
         | r p (T1 & T2 & C) X P1 P2
         | r (T1 & [T2 | (T2 & z & Z & C)]) X P1
         | r (T2 & [T1 | (T1 & z & Z & C)]) X P2
         | (T1 & T2 & C) P2];
    use_pulls; subst; by_facts; reflexivity.
Qed.

(** ... and a throw of [_compareValues] is one of them. *)
Lemma throws_raises (v1 v2 : val) (e : error) st :
  _deferred st = Some Pending ->
  fst (_compareValues v1 v2 st) = Throw e ->
  raises (compareFn st) (extractFn st) (_iter1 st) (_iter2 st) v1 v2 e.
Proof.
  intros H. destruct st as [c x d i1 i2 res q ns]. simpl in *. subst d.
  unfold_engine.
  by_cases; absurd_case; intros E; try discriminate E; injection E as <-;
    bool_facts; use_truthy; bool_facts; subst;
    first
      [ now apply comparator_raises
      | apply extractor_raises_both; [prove_call | assumption]
      | apply extractor_raises_left; [prove_call | assumption]
      | apply extractor_raises_right; [prove_call | assumption]
      | eapply first_pull_raises; [prove_call | eassumption | pull_fact]
      | eapply second_pull_raises;
          [prove_call | eassumption | pull_fact | pull_fact]
      | eapply left_pull_raises; [prove_call | eassumption | pull_fact]
      | eapply right_pull_raises; [prove_call | eassumption | pull_fact]
      | apply skipping_pull_raises; [prove_call | pull_fact] ].
Qed.

(** The computed failure of a turn is a failure by one of the causes. *)
Lemma failure_of_turn_causes (e : error) st :
  well_formed st -> (failure_of_turn st = Some e <-> turn_fails st e).
Proof.
  intros [_ [[Hq _] | [(t & Hq) Hd]]]; unfold failure_of_turn, turn_fails;
    rewrite Hq.
  - split; [discriminate | intros (t & q & E & _); discriminate].
  - assert (Hd' : _deferred (set_queue [] st) = Some Pending) by exact Hd.
    split.
    + intros F. exists t, []. split; [reflexivity | ].
      destruct (awaited t) as [v1 v2 | e'].
      * right. exists v1, v2. split; [reflexivity | ].
        apply (throws_raises v1 v2 e (set_queue [] st) Hd').
        destruct (fst (_compareValues v1 v2 (set_queue [] st)));
          congruence.
      * left. congruence.
    + intros (t' & q & E & F). injection E as <- <-.
      destruct F as [-> | (v1 & v2 & -> & F)]; [reflexivity | ].
      now rewrite (raises_throws v1 v2 e (set_queue [] st) Hd' F).
Qed.


End Failures.



(** ** The record of an EQUAL comparison *)

(** C9: with the default extractor, when two truthy values compare EQUAL
    the record appended is [{ value: v1, exists: "both" }]: it carries the
    value of the left source, and the right value [v2] appears nowhere in
    it. *)
Theorem both_record_carries_left (v1 v2 : val) (st : engine DiffRecord) :
  extractFn st = defaultExtract ->
  compareFn st v1 v2 = Ok 0 ->
  truthy v1 = true -> truthy v2 = true ->
  defaultExtract v1 v2 0 = Ok {| value := v1; exists_ := "both" |} /\
  _results (snd (_compareValues v1 v2 st))
    = _results st ++ [{| value := v1; exists_ := "both" |}].
Proof.
  intros X H T1 T2.
  assert (D : defaultExtract v1 v2 0 = Ok {| value := v1; exists_ := "both" |})
    by (unfold defaultExtract; now rewrite T1, T2).
  split; [exact D | ].
  destruct st as [c x d i1 i2 res q ns]. simpl in *. subst x.
  unfold_methods. rewrite T1, T2. cbn. rewrite H. cbn. rewrite D.
  by_cases; reflexivity.
Qed.

Lemma both_record_carries_left_witness :
  let st := started (fun _ _ => Ok 0) defaultExtract (of_list []) (of_list []) in
  _results (snd (_compareValues (VStr "a") (VStr "b") st))
    = [{| value := VStr "a"; exists_ := "both" |}].
Proof.
  intros st.
  apply (both_record_carries_left (VStr "a") (VStr "b") st); reflexivity.
Defined.

(** ** The run of a comparison, step by step *)

(** [compare] on two sources whose first calls return: both have been
    called once and one chain waits for the two promises. *)
Lemma started_running_with {R : Type} (c : cmp_fn) (x : extract_fn R)
    (sh1 sh2 : shape) (beh1 beh2 : nat -> pull) (p1 p2 : promise) :
  wrap (beh1 0%nat) = Ok p1 -> wrap (beh2 0%nat) = Ok p2 ->
  started c x (Iter sh1 {| behaviour := beh1; pulls := 0 |})
              (Iter sh2 {| behaviour := beh2; pulls := 0 |}) =
  running_with c x sh1 sh2 beh1 beh2 1 1 [] [ThenBoth p1 p2] [].
Proof.
  intros W1 W2. unfold started, compare, create, running_with.
  by_steps. reflexivity.
Qed.

Lemma yields_held (beh : nat -> pull) (k : nat) (A : list val) :
  yields beh k A ->
  exists v p, wrap (beh k) = Ok p /\ outcome p = Fulfils v /\ held beh (S k) v A.
Proof.
  destruct A as [ | a A']; simpl.
  - intros (v & D & F). destruct (delivered_wrap _ _ D) as (p & W & O).
    exists v, p. auto.
  - intros (D & T & Y). destruct (delivered_wrap _ _ D) as (p & W & O).
    exists a, p. auto.
Qed.

Lemma sorted_merge_compare_nil_r (cmp : val -> val -> Z) (A : list val) :
  sorted_merge_compare cmp A [] = map left_record A.
Proof. now destruct A. Qed.

Lemma sorted_merge_compare_nil_l (cmp : val -> val -> Z) (B : list val) :
  sorted_merge_compare cmp [] B = map right_record B.
Proof. now destruct B. Qed.

Lemma sorted_merge_compare_cons (cmp : val -> val -> Z) (a b : val) (A B : list val) :
  sorted_merge_compare cmp (a :: A) (b :: B) =
  if cmp a b =? 0 then both_record a :: sorted_merge_compare cmp A B
  else if cmp a b <? 0 then left_record a :: sorted_merge_compare cmp A (b :: B)
  else right_record b :: sorted_merge_compare cmp (a :: A) B.
Proof. reflexivity. Qed.

Section Steps.

Variables (cf : cmp_fn) (sh1 sh2 : shape) (beh1 beh2 : nat -> pull).

Let live := running cf sh1 sh2 beh1 beh2.
Let over := finished cf sh1 sh2 beh1 beh2.

Ltac step_tac :=
  unfold live, over, running, finished, callback; by_steps; reflexivity.

(** EQUAL: a [both] record, then both sources are pulled. *)
Lemma step_equal a b p1 p2 k1 k2 acc ns :
  truthy a = true -> truthy b = true -> cf a b = Ok 0 ->
  wrap (beh1 k1) = Ok p1 -> wrap (beh2 k2) = Ok p2 ->
  callback (_compareValues a b) (live k1 k2 acc [] ns) =
  live (S k1) (S k2) (acc ++ [both_record a]) [ThenBoth p1 p2]
    (ns ++ [acc ++ [both_record a]]).
Proof.
  intros Ta Tb C W1 W2. step_tac.
Qed.

(** LESS: a [left] record, the left source is pulled, the right value is
    kept. *)
Lemma step_less a b (c : Z) p1 k1 k2 acc ns :
  truthy a = true -> truthy b = true -> cf a b = Ok c -> c < 0 ->
  wrap (beh1 k1) = Ok p1 ->
  callback (_compareValues a b) (live k1 k2 acc [] ns) =
  live (S k1) k2 (acc ++ [left_record a]) [ThenLeft p1 b]
    (ns ++ [acc ++ [left_record a]]).
Proof.
  intros Ta Tb C L W1. step_tac.
Qed.

(** GREATER: a [right] record, the right source is pulled, the left value
    is kept. *)
Lemma step_greater a b (c : Z) p2 k1 k2 acc ns :
  truthy a = true -> truthy b = true -> cf a b = Ok c -> 0 < c ->
  wrap (beh2 k2) = Ok p2 ->
  callback (_compareValues a b) (live k1 k2 acc [] ns) =
  live k1 (S k2) (acc ++ [right_record b]) [ThenRight a p2]
    (ns ++ [acc ++ [right_record b]]).
Proof.
  intros Ta Tb C L W2. step_tac.
Qed.

(** Only the left value is present. *)
Lemma step_left_only a v p1 k1 k2 acc ns :
  truthy a = true -> truthy v = false -> wrap (beh1 k1) = Ok p1 ->
  callback (_compareValues a v) (live k1 k2 acc [] ns) =
  live (S k1) k2 (acc ++ [left_record a]) [ThenLeft p1 VUndefined]
    (ns ++ [acc ++ [left_record a]]).
Proof.
  intros Ta Tv W1. step_tac.
Qed.

(** Only the right value is present. *)
Lemma step_right_only v b p2 k1 k2 acc ns :
  truthy v = false -> truthy b = true -> wrap (beh2 k2) = Ok p2 ->
  callback (_compareValues v b) (live k1 k2 acc [] ns) =
  live k1 (S k2) (acc ++ [right_record b]) [ThenRight VUndefined p2]
    (ns ++ [acc ++ [right_record b]]).
Proof.
  intros Tv Tb W2. step_tac.
Qed.

(** Neither value is present: the comparison resolves. *)
Lemma step_done v1 v2 k1 k2 acc ns :
  truthy v1 = false -> truthy v2 = false ->
  callback (_compareValues v1 v2) (live k1 k2 acc [] ns) =
  over k1 k2 acc ns.
Proof.
  intros T1 T2. step_tac.
Qed.

(** A turn of the event loop hands the awaited values to [_compareValues]. *)
Lemma tick_running t v1 v2 k1 k2 acc ns :
  awaited t = Fulfils2 v1 v2 ->
  tick (live k1 k2 acc [t] ns) =
  callback (_compareValues v1 v2) (live k1 k2 acc [] ns).
Proof.
  intros H. unfold tick, run_task. cbn. now rewrite H.
Qed.

End Steps.

Section MergeRun.

Variables (cf : cmp_fn) (cmp : val -> val -> Z).
Variables (sh1 sh2 : shape) (beh1 beh2 : nat -> pull).

Let live := running cf sh1 sh2 beh1 beh2.
Let over := finished cf sh1 sh2 beh1 beh2.

Lemma awaited_left p v w :
  outcome p = Fulfils v -> awaited (ThenLeft p w) = Fulfils2 v w.
Proof. simpl. now intros ->. Qed.

Lemma awaited_right p v w :
  outcome p = Fulfils v -> awaited (ThenRight w p) = Fulfils2 w v.
Proof. simpl. now intros ->. Qed.

Lemma awaited_both p1 p2 v1 v2 :
  outcome p1 = Fulfils v1 -> outcome p2 = Fulfils v2 ->
  awaited (ThenBoth p1 p2) = Fulfils2 v1 v2.
Proof. simpl. unfold all. now intros -> ->. Qed.

(** From the moment [_compareValues] receives the values held for the two
    sides, with [A] and [B] still to be accounted for, the run resolves
    with the records so far followed by the sorted-merge comparison of [A]
    and [B]; each source is called once more for each of its elements. *)
Lemma run_from_values (m : nat) :
  forall (A B : list val), (length A + length B <= m)%nat ->
  forall v1 v2 k1 k2 acc ns n,
    held beh1 k1 v1 A -> held beh2 k2 v2 B ->
    (forall a b, In a A -> In b B -> cf a b = Ok (cmp a b)) ->
    (m <= n)%nat ->
    exists ns',
      run n (callback (_compareValues v1 v2) (live k1 k2 acc [] ns)) =
      over (k1 + length A) (k2 + length B)
           (acc ++ sorted_merge_compare cmp A B) ns'.
Proof.
  induction m as [ | m IH]; intros A B Hlen v1 v2 k1 k2 acc ns n H1 H2 Hc Hn.
  - destruct A; [ | simpl in Hlen; lia]. destruct B; [ | simpl in Hlen; lia].
    simpl in H1, H2. unfold live. rewrite step_done by assumption.
    rewrite run_idle by reflexivity. exists ns. unfold over. simpl.
    now rewrite app_nil_r, !Nat.add_0_r.
  - destruct A as [ | a A']; destruct B as [ | b B'].
    + simpl in H1, H2. unfold live. rewrite step_done by assumption.
      rewrite run_idle by reflexivity. exists ns. unfold over. simpl.
      now rewrite app_nil_r, !Nat.add_0_r.
    + (* only the right value *)
      destruct H2 as (-> & Tb & Y2). simpl in H1.
      destruct (yields_held _ _ _ Y2) as (v' & p & W & O & H').
      destruct n as [ | n]; [lia | ].
      unfold live. rewrite (step_right_only _ _ _ _ _ v1 b p) by assumption.
      rewrite run_tick.
      rewrite (tick_running _ _ _ _ _ _ VUndefined v')
        by now apply awaited_right.
      destruct (IH [] B' ltac:(simpl in *; lia) VUndefined v' k1 (S k2)
                  (acc ++ [right_record b]) (ns ++ [acc ++ [right_record b]]) n
                  eq_refl H' ltac:(intros a0 b0 []) ltac:(lia))
        as (ns' & E).
      exists ns'. unfold live in E. rewrite E.
      rewrite !sorted_merge_compare_nil_l. simpl.
      rewrite <- app_assoc. simpl. f_equal; lia.
    + (* only the left value *)
      destruct H1 as (-> & Ta & Y1). simpl in H2.
      destruct (yields_held _ _ _ Y1) as (v' & p & W & O & H').
      destruct n as [ | n]; [lia | ].
      unfold live. rewrite (step_left_only _ _ _ _ _ a v2 p) by assumption.
      rewrite run_tick.
      rewrite (tick_running _ _ _ _ _ _ v' VUndefined)
        by now apply awaited_left.
      destruct (IH A' [] ltac:(simpl in *; lia) v' VUndefined (S k1) k2
                  (acc ++ [left_record a]) (ns ++ [acc ++ [left_record a]]) n
                  H' eq_refl ltac:(intros a0 b0 _ []) ltac:(lia))
        as (ns' & E).
      exists ns'. unfold live in E. rewrite E.
      rewrite !sorted_merge_compare_nil_r. simpl.
      rewrite <- app_assoc. simpl. f_equal; lia.
    + (* both values *)
      destruct H1 as (-> & Ta & Y1). destruct H2 as (-> & Tb & Y2).
      assert (C : cf a b = Ok (cmp a b)) by (apply Hc; now left).
      destruct n as [ | n]; [lia | ].
      rewrite sorted_merge_compare_cons.
      destruct (Z.eqb_spec (cmp a b) 0) as [E0 | N0];
        [ | destruct (Z.ltb_spec (cmp a b) 0) as [L | G]].
      * (* EQUAL *)
        destruct (yields_held _ _ _ Y1) as (v1' & p1 & W1 & O1 & H1').
        destruct (yields_held _ _ _ Y2) as (v2' & p2 & W2 & O2 & H2').
        rewrite E0 in C. unfold live.
        rewrite (step_equal _ _ _ _ _ a b p1 p2) by assumption.
        rewrite run_tick.
        rewrite (tick_running _ _ _ _ _ _ v1' v2')
          by now apply awaited_both.
        destruct (IH A' B' ltac:(simpl in *; lia) v1' v2' (S k1) (S k2)
                    (acc ++ [both_record a]) (ns ++ [acc ++ [both_record a]]) n
                    H1' H2'
                    ltac:(intros a0 b0 Ia Ib; apply Hc; now right) ltac:(lia))
          as (ns' & E).
        exists ns'. unfold live in E. rewrite E.
        rewrite <- app_assoc. simpl. f_equal; lia.
      * (* LESS *)
        destruct (yields_held _ _ _ Y1) as (v1' & p1 & W1 & O1 & H1').
        unfold live.
        rewrite (step_less _ _ _ _ _ a b (cmp a b) p1) by assumption.
        rewrite run_tick.
        rewrite (tick_running _ _ _ _ _ _ v1' b)
          by now apply awaited_left.
        destruct (IH A' (b :: B') ltac:(simpl in *; lia) v1' b (S k1) k2
                    (acc ++ [left_record a]) (ns ++ [acc ++ [left_record a]]) n
                    H1' (conj eq_refl (conj Tb Y2))
                    ltac:(intros a0 b0 Ia Ib; apply Hc; [now right | assumption])
                    ltac:(lia))
          as (ns' & E).
        exists ns'. unfold live in E. rewrite E.
        rewrite <- app_assoc. simpl. f_equal; lia.
      * (* GREATER *)
        destruct (yields_held _ _ _ Y2) as (v2' & p2 & W2 & O2 & H2').
        unfold live.
        rewrite (step_greater _ _ _ _ _ a b (cmp a b) p2)
          by (assumption || lia).
        rewrite run_tick.
        rewrite (tick_running _ _ _ _ _ _ a v2')
          by now apply awaited_right.
        destruct (IH (a :: A') B' ltac:(simpl in *; lia) a v2' k1 (S k2)
                    (acc ++ [right_record b]) (ns ++ [acc ++ [right_record b]]) n
                    (conj eq_refl (conj Ta Y1)) H2'
                    ltac:(intros a0 b0 Ia Ib; apply Hc; [assumption | now right])
                    ltac:(lia))
          as (ns' & E).
        exists ns'. unfold live in E. rewrite E.
        rewrite <- app_assoc. simpl. f_equal; lia.
Qed.

(** The whole run, from the call of [compare] on a new instance. *)
Lemma run_from_start (A B : list val) (n : nat) :
  yields beh1 0 A -> yields beh2 0 B ->
  (forall a b, In a A -> In b B -> cf a b = Ok (cmp a b)) ->
  (length A + length B < n)%nat ->
  exists ns,
    run n (started cf defaultExtract
             (Iter sh1 {| behaviour := beh1; pulls := 0 |})
             (Iter sh2 {| behaviour := beh2; pulls := 0 |})) =
    over (S (length A)) (S (length B)) (sorted_merge_compare cmp A B) ns.
Proof.
  intros Y1 Y2 Hc Hn.
  destruct (yields_held _ _ _ Y1) as (v1 & p1 & W1 & O1 & H1).
  destruct (yields_held _ _ _ Y2) as (v2 & p2 & W2 & O2 & H2).
  assert (E : started cf defaultExtract
                (Iter sh1 {| behaviour := beh1; pulls := 0 |})
                (Iter sh2 {| behaviour := beh2; pulls := 0 |}) =
              live 1 1 [] [ThenBoth p1 p2] []).
  { exact (started_running_with cf defaultExtract sh1 sh2 beh1 beh2 p1 p2
             W1 W2). }
  rewrite E. destruct n as [ | n]; [lia | ].
  rewrite run_tick.
  unfold live. rewrite (tick_running _ _ _ _ _ _ v1 v2) by now apply awaited_both.
  destruct (run_from_values (length A + length B) A B (Nat.le_refl _)
              v1 v2 1%nat 1%nat [] [] n H1 H2 Hc ltac:(lia)) as (ns & R).
  exists ns. unfold live in R. rewrite R. reflexivity.
Qed.

End MergeRun.

(** ** The sorted-merge comparison of two lists *)

Section MergeFacts.

Variable cmp : val -> val -> Z.

Let merge := sorted_merge_compare cmp.

(** Induction following the three branches of the merge. *)
Lemma merge_cases_ind (P : list val -> list val -> Prop) :
  (forall B, P [] B) ->
  (forall a A, P (a :: A) []) ->
  (forall a A b B, cmp a b = 0 -> P A B -> P (a :: A) (b :: B)) ->
  (forall a A b B, cmp a b < 0 -> P A (b :: B) -> P (a :: A) (b :: B)) ->
  (forall a A b B, 0 < cmp a b -> P (a :: A) B -> P (a :: A) (b :: B)) ->
  forall A B, P A B.
Proof.
  intros Hnil Hnil' He Hl Hg. induction A as [ | a A IHA]; [exact Hnil | ].
  induction B as [ | b B IHB]; [apply Hnil' | ].
  destruct (Z.lt_trichotomy (cmp a b) 0) as [L | [E | G]]; auto.
Qed.

Lemma merge_equal a A b B :
  cmp a b = 0 -> merge (a :: A) (b :: B) = both_record a :: merge A B.
Proof.
  intros E. unfold merge. rewrite sorted_merge_compare_cons.
  now rewrite E.
Qed.

Lemma merge_less a A b B :
  cmp a b < 0 -> merge (a :: A) (b :: B) = left_record a :: merge A (b :: B).
Proof.
  intros L. unfold merge. rewrite sorted_merge_compare_cons.
  replace (cmp a b =? 0) with false by (symmetry; apply Z.eqb_neq; lia).
  now replace (cmp a b <? 0) with true by (symmetry; apply Z.ltb_lt; lia).
Qed.

Lemma merge_greater a A b B :
  0 < cmp a b -> merge (a :: A) (b :: B) = right_record b :: merge (a :: A) B.
Proof.
  intros G. unfold merge. rewrite sorted_merge_compare_cons.
  replace (cmp a b =? 0) with false by (symmetry; apply Z.eqb_neq; lia).
  now replace (cmp a b <? 0) with false by (symmetry; apply Z.ltb_ge; lia).
Qed.

Lemma left_side_lefts A : map value (left_side (map left_record A)) = A.
Proof. induction A; simpl; congruence. Qed.

Lemma left_side_rights B : left_side (map right_record B) = [].
Proof. induction B; simpl; auto. Qed.

Lemma right_side_lefts A : right_side (map left_record A) = [].
Proof. induction A; simpl; auto. Qed.

Lemma tagged_same_lefts A : tagged "left" (map left_record A) = A.
Proof. unfold tagged. induction A; simpl in *; congruence. Qed.

Lemma tagged_same_rights B : tagged "right" (map right_record B) = B.
Proof. unfold tagged. induction B; simpl in *; congruence. Qed.

Lemma tagged_both_lefts A : tagged "both" (map left_record A) = [].
Proof. unfold tagged. induction A; simpl in *; auto. Qed.

Lemma tagged_right_lefts A : tagged "right" (map left_record A) = [].
Proof. unfold tagged. induction A; simpl in *; auto. Qed.

Lemma tagged_both_rights B : tagged "both" (map right_record B) = [].
Proof. unfold tagged. induction B; simpl in *; auto. Qed.

Lemma tagged_left_rights B : tagged "left" (map right_record B) = [].
Proof. unfold tagged. induction B; simpl in *; auto. Qed.

(** The [left] and [both] records carry the elements of [A], one record
    for each, in the order of [A]. *)
Lemma left_side_of_merge A B : map value (left_side (merge A B)) = A.
Proof.
  revert A B. apply merge_cases_ind.
  - intros B. unfold merge. rewrite sorted_merge_compare_nil_l.
    now rewrite left_side_rights.
  - intros a A. unfold merge. rewrite sorted_merge_compare_nil_r.
    apply left_side_lefts.
  - intros a A b B E IH. rewrite merge_equal by assumption. simpl. now rewrite IH.
  - intros a A b B L IH. rewrite merge_less by assumption. simpl. now rewrite IH.
  - intros a A b B G IH. rewrite merge_greater by assumption. simpl. exact IH.
Qed.

(** The [right] and [both] records account for the elements of [B], one
    record for each, in the order of [B]. *)
Lemma right_side_of_merge A B : Forall2 (accounts_for cmp) (right_side (merge A B)) B.
Proof.
  revert A B. apply merge_cases_ind.
  - intros B. unfold merge. rewrite sorted_merge_compare_nil_l.
    induction B; simpl; constructor; auto. reflexivity.
  - intros a A. unfold merge. rewrite sorted_merge_compare_nil_r.
    rewrite right_side_lefts. constructor.
  - intros a A b B E IH. rewrite merge_equal by assumption. simpl.
    constructor; [exact E | exact IH].
  - intros a A b B L IH. rewrite merge_less by assumption. simpl. exact IH.
  - intros a A b B G IH. rewrite merge_greater by assumption. simpl.
    constructor; [reflexivity | exact IH].
Qed.

End MergeFacts.

(** ** The sorted-merge comparison of two sorted lists *)

Lemma filter_none {X : Type} (f : X -> bool) (l : list X) :
  (forall x, In x l -> f x = false) -> filter f l = [].
Proof.
  induction l as [ | x l IH]; simpl; intros H; auto.
  rewrite (H x) by now left. apply IH. intros y Hy. apply H. now right.
Qed.

Lemma sorted_cons (cmp : val -> val -> Z) x l :
  non_decreasing cmp (x :: l) = true <->
  head_le cmp x l /\ non_decreasing cmp l = true.
Proof.
  destruct l as [ | y l]; simpl.
  - tauto.
  - rewrite andb_true_iff, Z.leb_le. tauto.
Qed.

Lemma count_equal_cons (cmp : val -> val -> Z) k x l :
  count_equal cmp k (x :: l) =
  ((if (cmp x k =? 0)%Z then 1 else 0) + count_equal cmp k l)%nat.
Proof. unfold count_equal. simpl. now destruct (cmp x k =? 0). Qed.

Section OrderedMerge.

Variable cmp : val -> val -> Z.
Variable L : list val.
Hypothesis consistent : total_order_consistent cmp L = true.

Let merge := sorted_merge_compare cmp.

Lemma cmp_flip x y :
  In x L -> In y L ->
  (cmp x y < 0 /\ 0 < cmp y x) \/ (cmp x y = 0 /\ cmp y x = 0) \/
  (0 < cmp x y /\ cmp y x < 0).
Proof.
  intros Hx Hy. unfold total_order_consistent, flips_on in consistent.
  apply andb_true_iff in consistent. destruct consistent as [F _].
  rewrite forallb_forall in F. specialize (F x Hx).
  rewrite forallb_forall in F. specialize (F y Hy).
  apply Z.eqb_eq in F.
  destruct (Z.sgn_spec (cmp x y)) as [[? E1] | [[? E1] | [? E1]]];
    destruct (Z.sgn_spec (cmp y x)) as [[? E2] | [[? E2] | [? E2]]];
    rewrite E1, E2 in F; lia.
Qed.

Lemma cmp_trans x y z :
  In x L -> In y L -> In z L -> cmp x y <= 0 -> cmp y z <= 0 -> cmp x z <= 0.
Proof.
  intros Hx Hy Hz Hxy Hyz. unfold total_order_consistent, transitive_on in consistent.
  apply andb_true_iff in consistent. destruct consistent as [_ T].
  rewrite forallb_forall in T. specialize (T x Hx).
  rewrite forallb_forall in T. specialize (T y Hy).
  rewrite forallb_forall in T. specialize (T z Hz).
  apply Z.leb_le in Hxy, Hyz. rewrite Hxy, Hyz in T. simpl in T.
  now apply Z.leb_le.
Qed.

Lemma cmp_refl x : In x L -> cmp x x = 0.
Proof. intros Hx. destruct (cmp_flip x x Hx Hx) as [? | [? | ?]]; lia. Qed.

Lemma equal_congr a b k :
  In a L -> In b L -> In k L -> cmp a b = 0 ->
  (cmp a k =? 0) = (cmp b k =? 0).
Proof.
  intros Ha Hb Hk E.
  pose proof (cmp_flip a b Ha Hb). pose proof (cmp_flip a k Ha Hk).
  pose proof (cmp_flip b k Hb Hk).
  pose proof (cmp_trans b a k Hb Ha Hk). pose proof (cmp_trans k a b Hk Ha Hb).
  pose proof (cmp_trans a b k Ha Hb Hk). pose proof (cmp_trans k b a Hk Hb Ha).
  destruct (Z.eqb_spec (cmp a k) 0); destruct (Z.eqb_spec (cmp b k) 0); lia.
Qed.

Lemma sorted_head_all x l :
  incl (x :: l) L -> non_decreasing cmp (x :: l) = true ->
  forall y, In y (x :: l) -> cmp x y <= 0.
Proof.
  revert x. induction l as [ | y0 l IH]; intros x I S y Hy.
  - destruct Hy as [<- | []]. rewrite cmp_refl; [lia | apply I; now left].
  - apply sorted_cons in S. destruct S as [H S]. simpl in H.
    destruct Hy as [<- | Hy].
    + rewrite cmp_refl; [lia | apply I; now left].
    + assert (I' : incl (y0 :: l) L) by (intros z Hz; apply I; now right).
      apply (cmp_trans x y0 y).
      * apply I; now left.
      * apply I'; now left.
      * apply I'; exact Hy.
      * exact H.
      * exact (IH y0 I' S y Hy).
Qed.

(** An element equal to [k] stands strictly before a sorted list: the list
    has no element equal to [k]. *)
Lemma count_equal_above a b B k :
  In a L -> incl (b :: B) L -> In k L ->
  non_decreasing cmp (b :: B) = true ->
  cmp a b < 0 -> cmp a k = 0 -> count_equal cmp k (b :: B) = 0%nat.
Proof.
  intros Ha I Hk S Lt E. unfold count_equal. rewrite filter_none; [reflexivity | ].
  intros y Hy. apply Z.eqb_neq. intros Ey.
  assert (Hb : In b L) by (apply I; now left).
  assert (Hy' : In y L) by now apply I.
  pose proof (sorted_head_all b B I S y Hy).
  pose proof (cmp_flip a k Ha Hk). pose proof (cmp_flip a b Ha Hb).
  pose proof (cmp_trans y k a Hy' Hk Ha). pose proof (cmp_trans b y a Hb Hy' Ha).
  lia.
Qed.

Lemma count_equal_below a A b k :
  incl (a :: A) L -> In b L -> In k L ->
  non_decreasing cmp (a :: A) = true ->
  0 < cmp a b -> cmp b k = 0 -> count_equal cmp k (a :: A) = 0%nat.
Proof.
  intros I Hb Hk S Gt E. unfold count_equal. rewrite filter_none; [reflexivity | ].
  intros x Hx. apply Z.eqb_neq. intros Ex.
  assert (Ha : In a L) by (apply I; now left).
  assert (Hx' : In x L) by now apply I.
  pose proof (sorted_head_all a A I S x Hx).
  pose proof (cmp_flip b k Hb Hk).
  pose proof (cmp_trans x k b Hx' Hk Hb). pose proof (cmp_trans a x b Ha Hx' Hb).
  lia.
Qed.

Lemma incl_tail {X : Type} (x : X) (l l' : list X) : incl (x :: l) l' -> incl l l'.
Proof. intros I y Hy. apply I. now right. Qed.

(** The records of each provenance, counted up to equality under the
    comparator: [both] for the intersection, [left] for what [A] has more
    than [B], [right] for what [B] has more than [A]. *)
Lemma counts_of_merge A B :
  incl A L -> incl B L ->
  non_decreasing cmp A = true -> non_decreasing cmp B = true ->
  forall k, In k L ->
    count_equal cmp k (tagged "both" (merge A B))
      = Nat.min (count_equal cmp k A) (count_equal cmp k B) /\
    count_equal cmp k (tagged "left" (merge A B))
      = (count_equal cmp k A - count_equal cmp k B)%nat /\
    count_equal cmp k (tagged "right" (merge A B))
      = (count_equal cmp k B - count_equal cmp k A)%nat.
Proof.
  unfold merge. pattern A, B. revert A B. apply (merge_cases_ind cmp).
  - intros B IA IB SA SB k Hk. rewrite sorted_merge_compare_nil_l.
    rewrite tagged_both_rights, tagged_left_rights, tagged_same_rights.
    change (count_equal cmp k []) with 0%nat. lia.
  - intros a A IA IB SA SB k Hk. rewrite sorted_merge_compare_nil_r.
    rewrite tagged_both_lefts, tagged_right_lefts, tagged_same_lefts.
    change (count_equal cmp k []) with 0%nat. lia.
  - intros a A b B E IH IA IB SA SB k Hk.
    apply sorted_cons in SA, SB. destruct SA as [_ SA], SB as [_ SB].
    destruct (IH (incl_tail _ _ _ IA) (incl_tail _ _ _ IB) SA SB k Hk)
      as (Hb & Hl & Hr).
    rewrite merge_equal by assumption.
    change (tagged "both" (both_record a :: sorted_merge_compare cmp A B))
      with (a :: tagged "both" (sorted_merge_compare cmp A B)).
    change (tagged "left" (both_record a :: sorted_merge_compare cmp A B))
      with (tagged "left" (sorted_merge_compare cmp A B)).
    change (tagged "right" (both_record a :: sorted_merge_compare cmp A B))
      with (tagged "right" (sorted_merge_compare cmp A B)).
    rewrite !count_equal_cons, Hb, Hl, Hr.
    rewrite <- (equal_congr a b k (IA a (or_introl eq_refl))
                  (IB b (or_introl eq_refl)) Hk E).
    destruct (cmp a k =? 0); lia.
  - intros a A b B Lt IH IA IB SA SB k Hk.
    assert (SA' : non_decreasing cmp A = true) by (apply sorted_cons in SA; tauto).
    destruct (IH (incl_tail _ _ _ IA) IB SA' SB k Hk) as (Hb & Hl & Hr).
    rewrite merge_less by assumption.
    change (tagged "both" (left_record a :: sorted_merge_compare cmp A (b :: B)))
      with (tagged "both" (sorted_merge_compare cmp A (b :: B))).
    change (tagged "left" (left_record a :: sorted_merge_compare cmp A (b :: B)))
      with (a :: tagged "left" (sorted_merge_compare cmp A (b :: B))).
    change (tagged "right" (left_record a :: sorted_merge_compare cmp A (b :: B)))
      with (tagged "right" (sorted_merge_compare cmp A (b :: B))).
    rewrite (count_equal_cons cmp k a (tagged "left" _)),
      (count_equal_cons cmp k a A),
      Hb, Hl, Hr.
    destruct (Z.eqb_spec (cmp a k) 0) as [E | N]; [ | lia].
    rewrite (count_equal_above a b B k); auto; try lia.
    apply IA; now left.
  - intros a A b B Gt IH IA IB SA SB k Hk.
    assert (SB' : non_decreasing cmp B = true) by (apply sorted_cons in SB; tauto).
    destruct (IH IA (incl_tail _ _ _ IB) SA SB' k Hk) as (Hb & Hl & Hr).
    rewrite merge_greater by assumption.
    change (tagged "both" (right_record b :: sorted_merge_compare cmp (a :: A) B))
      with (tagged "both" (sorted_merge_compare cmp (a :: A) B)).
    change (tagged "left" (right_record b :: sorted_merge_compare cmp (a :: A) B))
      with (tagged "left" (sorted_merge_compare cmp (a :: A) B)).
    change (tagged "right" (right_record b :: sorted_merge_compare cmp (a :: A) B))
      with (b :: tagged "right" (sorted_merge_compare cmp (a :: A) B)).
    rewrite (count_equal_cons cmp k b (tagged "right" _)),
      (count_equal_cons cmp k b B),
      Hb, Hl, Hr.
    destruct (Z.eqb_spec (cmp b k) 0) as [E | N]; [ | lia].
    rewrite (count_equal_below a A b k); auto; try lia.
    apply IB; now left.
Qed.

End OrderedMerge.

Section MergeOrder.

Variable cmp : val -> val -> Z.
Variable L : list val.
Hypothesis consistent : total_order_consistent cmp L = true.

Lemma values_lefts A : map value (map left_record A) = A.
Proof. induction A; simpl; congruence. Qed.

Lemma values_rights B : map value (map right_record B) = B.
Proof. induction B; simpl; congruence. Qed.

(** The merge starts with the head of one of the two lists. *)
Lemma head_le_merge x A B :
  head_le cmp x A -> head_le cmp x B ->
  head_le cmp x (map value (sorted_merge_compare cmp A B)).
Proof.
  destruct A as [ | a A]; destruct B as [ | b B]; simpl; auto.
  destruct (cmp a b =? 0); [ | destruct (cmp a b <? 0)]; simpl; auto.
Qed.

(** Merge order: the values of the records are non-decreasing. *)
Lemma merge_sorted A B :
  incl A L -> incl B L ->
  non_decreasing cmp A = true -> non_decreasing cmp B = true ->
  non_decreasing cmp (map value (sorted_merge_compare cmp A B)) = true.
Proof.
  pattern A, B. revert A B. apply (merge_cases_ind cmp).
  - intros B IA IB SA SB. rewrite sorted_merge_compare_nil_l.
    now rewrite values_rights.
  - intros a A IA IB SA SB. rewrite sorted_merge_compare_nil_r.
    now rewrite values_lefts.
  - intros a A b B E IH IA IB SA SB.
    rewrite merge_equal by assumption. rewrite map_cons.
    apply sorted_cons in SA, SB. destruct SA as [HA SA], SB as [HB SB].
    apply (proj2 (sorted_cons cmp _ _)). split.
    + apply head_le_merge; [exact HA | ].
      destruct B as [ | b' B]; simpl in *; auto.
      apply (cmp_trans cmp L consistent a b b'); try lia.
      * apply IA; now left.
      * apply IB; now left.
      * apply IB; right; now left.
    + apply IH; [exact (incl_tail _ _ _ IA) | exact (incl_tail _ _ _ IB) | exact SA | exact SB].
  - intros a A b B Lt IH IA IB SA SB.
    rewrite merge_less by assumption. rewrite map_cons.
    apply sorted_cons in SA. destruct SA as [HA SA].
    apply (proj2 (sorted_cons cmp _ _)). split.
    + apply head_le_merge; [exact HA | simpl; lia].
    + apply IH; [exact (incl_tail _ _ _ IA) | exact IB | exact SA | exact SB].
  - intros a A b B Gt IH IA IB SA SB.
    rewrite merge_greater by assumption. rewrite map_cons.
    apply sorted_cons in SB. destruct SB as [HB SB].
    apply (proj2 (sorted_cons cmp _ _)). split.
    + apply head_le_merge; [ | exact HB]. simpl.
      destruct (cmp_flip cmp L consistent a b) as [? | [? | ?]]; try lia.
      * apply IA; now left.
      * apply IB; now left.
    + apply IH; [exact IA | exact (incl_tail _ _ _ IB) | exact SA | exact SB].
Qed.

End MergeOrder.

(** ** The comparison of two sequences *)

Lemma natural_defaultCmp (a b : val) :
  defaultCmp plain_host a b = Ok (natural a b).
Proof.
  unfold natural, defaultCmp. destruct (strict_eq a b); [reflexivity | ].
  destruct a, b; reflexivity.
Qed.

(** C1, as stated: a non-decreasing sequence with a falsy element (the
    number [0]) is not compared as the sorted merge says: the engine takes
    the [0] for the end of the source and resolves with no record. *)
Lemma falsy_element_cuts_the_sequence :
  let A := [VNum 0; VNum 1] in
  non_decreasing natural A = true /\
  sorted_merge_compare natural A [] = [left_record (VNum 0); left_record (VNum 1)] /\
  _deferred (run 3 (started (defaultCmp plain_host) defaultExtract
                      (of_list A) (of_list [])))
    = Some (Resolved []).
Proof. repeat split. Qed.

(** C1, amended: let two sources deliver the sequences [A] and [B] of
    truthy elements, each non-decreasing under the configured comparator,
    which is consistent with a total preorder on these elements.  With the
    default extractor, [compare] resolves (after at most one turn of the
    event loop for each element, and one more) with the three-way
    sorted-merge comparison of [A] and [B]: in that list,
    - the [left] and [both] records carry the elements of [A], one record
      each, in the order of [A];
    - the [right] and [both] records account for the elements of [B], one
      record each, in the order of [B];
    - for every element [k], counting up to equality under the comparator,
      the [both] records are the intersection, the [left] records what [A]
      has more than [B], the [right] records what [B] has more than [A];
    - the values are in merge order (non-decreasing). *)
Theorem compare_is_sorted_merge (cf : cmp_fn) (cmp : val -> val -> Z)
    (sh1 sh2 : shape) (beh1 beh2 : nat -> pull) (A B : list val) (n : nat) :
  yields beh1 0 A -> yields beh2 0 B ->
  (forall a b, In a A -> In b B -> cf a b = Ok (cmp a b)) ->
  total_order_consistent cmp (A ++ B) = true ->
  non_decreasing cmp A = true -> non_decreasing cmp B = true ->
  (length A + length B < n)%nat ->
  let st := run n (started cf defaultExtract
                     (Iter sh1 {| behaviour := beh1; pulls := 0 |})
                     (Iter sh2 {| behaviour := beh2; pulls := 0 |})) in
  let res := sorted_merge_compare cmp A B in
  _deferred st = Some (Resolved res) /\
  map value (left_side res) = A /\
  Forall2 (accounts_for cmp) (right_side res) B /\
  (forall k, In k (A ++ B) ->
     count_equal cmp k (tagged "both" res)
       = Nat.min (count_equal cmp k A) (count_equal cmp k B) /\
     count_equal cmp k (tagged "left" res)
       = (count_equal cmp k A - count_equal cmp k B)%nat /\
     count_equal cmp k (tagged "right" res)
       = (count_equal cmp k B - count_equal cmp k A)%nat) /\
  non_decreasing cmp (map value res) = true.
Proof.
  intros Y1 Y2 Hc Ho SA SB Hn st res.
  destruct (run_from_start cf cmp sh1 sh2 beh1 beh2 A B n Y1 Y2 Hc Hn)
    as (ns & E).
  assert (IA : incl A (A ++ B)) by apply incl_appl, incl_refl.
  assert (IB : incl B (A ++ B)) by apply incl_appr, incl_refl.
  repeat split.
  - subst st. now rewrite E.
  - apply left_side_of_merge.
  - apply right_side_of_merge.
  - now apply (counts_of_merge cmp (A ++ B) Ho A B IA IB SA SB k).
  - now apply (counts_of_merge cmp (A ++ B) Ho A B IA IB SA SB k).
  - now apply (counts_of_merge cmp (A ++ B) Ho A B IA IB SA SB k).
  - now apply (merge_sorted cmp (A ++ B) Ho A B).
Qed.

Lemma compare_is_sorted_merge_witness :
  let A := [VNum 1; VNum 3; VNum 5; VNum 7] in
  let B := [VNum 3; VNum 4; VNum 5; VNum 8] in
  _deferred (run 9 (started (defaultCmp plain_host) defaultExtract
                      (of_list A) (of_list B)))
    = Some (Resolved [left_record (VNum 1); both_record (VNum 3);
                      right_record (VNum 4); both_record (VNum 5);
                      left_record (VNum 7); right_record (VNum 8)]).
Proof.
  intros A B.
  apply (compare_is_sorted_merge (defaultCmp plain_host) natural
           Callable Callable (list_behaviour A) (list_behaviour B) A B 9).
  - cbn. repeat (split; [reflexivity | ]). exists VUndefined. split; reflexivity.
  - cbn. repeat (split; [reflexivity | ]). exists VUndefined. split; reflexivity.
  - intros a b _ _. apply natural_defaultCmp.
  - vm_compute. reflexivity.
  - vm_compute. reflexivity.
  - vm_compute. reflexivity.
  - simpl. lia.
Defined.

(** ** Falsy values *)

(** C5: a falsy value delivered by a pull is the end of that source for
    the engine.  [_compareValues] does with a falsy value exactly what it
    does with [undefined], whatever the value is; and in a run the sources
    are read up to their first falsy value and never called again: the
    result is the comparison of the elements delivered before it, whatever
    the sources would deliver afterwards. *)
Theorem falsy_is_exhaustion (cf : cmp_fn) (cmp : val -> val -> Z)
    (sh1 sh2 : shape) (beh1 beh2 : nat -> pull) (A B : list val) (n : nat) :
  yields beh1 0 A -> yields beh2 0 B ->
  (forall a b, In a A -> In b B -> cf a b = Ok (cmp a b)) ->
  (length A + length B < n)%nat ->
  let st := run n (started cf defaultExtract
                     (Iter sh1 {| behaviour := beh1; pulls := 0 |})
                     (Iter sh2 {| behaviour := beh2; pulls := 0 |})) in
  (forall (R : Type) (e : engine R) (f v : val), truthy f = false ->
     _compareValues f v e = _compareValues VUndefined v e /\
     _compareValues v f e = _compareValues v VUndefined e) /\
  _deferred st = Some (Resolved (sorted_merge_compare cmp A B)) /\
  pulled (_iter1 st) = S (length A) /\
  pulled (_iter2 st) = S (length B).
Proof.
  intros Y1 Y2 Hc Hn st. split.
  - intros R e f v F. unfold_methods. rewrite F.
    destruct (truthy v); cbn; split; reflexivity.
  - destruct (run_from_start cf cmp sh1 sh2 beh1 beh2 A B n Y1 Y2 Hc Hn)
      as (ns & E).
    subst st. rewrite E. repeat split.
Qed.

Lemma falsy_is_exhaustion_witness :
  let st := run 4 (started (defaultCmp plain_host) defaultExtract
                     (of_list [VNum 1; VNum 0; VNum 2])
                     (of_list [VNum 1; VStr EmptyString; VNum 3])) in
  _deferred st = Some (Resolved [both_record (VNum 1)]) /\
  pulled (_iter1 st) = 2%nat /\ pulled (_iter2 st) = 2%nat.
Proof.
  intros st.
  apply (falsy_is_exhaustion (defaultCmp plain_host) natural Callable Callable
           (list_behaviour [VNum 1; VNum 0; VNum 2])
           (list_behaviour [VNum 1; VStr EmptyString; VNum 3])
           [VNum 1] [VNum 1] 4).
  - cbn. repeat (split; [reflexivity | ]). exists (VNum 0). split; reflexivity.
  - cbn. repeat (split; [reflexivity | ]). exists (VStr EmptyString).
    split; reflexivity.
  - intros a b _ _. apply natural_defaultCmp.
  - simpl. lia.
Defined.

(** ** The examples of the specification *)

Lemma IterativeCompare_defaults (host_lt : val -> val -> result bool) :
  IterativeCompare host_lt no_options = create (defaultCmp host_lt) defaultExtract.
Proof. reflexivity. Qed.

(** Empty A, B = [3, 4, 5]: three [right] records. *)
Example empty_left_example :
  let st := run 4 (snd (compare (of_list []) (of_list [VNum 3; VNum 4; VNum 5])
                          (IterativeCompare plain_host no_options))) in
  _deferred st = Some (Resolved [right_record (VNum 3); right_record (VNum 4);
                                 right_record (VNum 5)]) /\
  length (notified st) = 3%nat.
Proof. split; reflexivity. Qed.

(** A = [1, 3, 5, 7], B = [3, 4, 5, 8], natural order. *)
Example natural_order_example :
  let st := run 7 (snd (compare (of_list [VNum 1; VNum 3; VNum 5; VNum 7])
                          (of_list [VNum 3; VNum 4; VNum 5; VNum 8])
                          (IterativeCompare plain_host no_options))) in
  _deferred st = Some (Resolved [left_record (VNum 1); both_record (VNum 3);
                                 right_record (VNum 4); both_record (VNum 5);
                                 left_record (VNum 7); right_record (VNum 8)]) /\
  pulled (_iter1 st) = 5%nat /\ pulled (_iter2 st) = 5%nat.
Proof. repeat split. Qed.

(** A run of equal elements is matched one pair at a time. *)
Example equal_run_example :
  _deferred (run 4 (snd (compare (of_list [VNum 1; VNum 1]) (of_list [VNum 1])
                           (IterativeCompare plain_host no_options))))
    = Some (Resolved [both_record (VNum 1); left_record (VNum 1)]).
Proof. reflexivity. Qed.

(** The third pull of A is rejected: the comparison is rejected, the two
    notifications already sent remain, and B, pulled twice by then, is not
    pulled again. *)
Example mid_stream_failure_example :
  let boom := Error "boom" in
  let A := Iter Callable
             {| behaviour := fun n =>
                  match n with
                  | 0%nat => Returns (VNum 1)
                  | 1%nat => Returns (VNum 3)
                  | _ => Promises {| delay := 0; outcome := Rejects boom |}
                  end;
                pulls := 0 |} in
  let B := of_list [VNum 3; VNum 4; VNum 5; VNum 8] in
  let st := run 20 (snd (compare A B (IterativeCompare plain_host no_options))) in
  _deferred st = Some (Rejected boom) /\
  notified st = [[left_record (VNum 1)];
                 [left_record (VNum 1); both_record (VNum 3)]] /\
  pulled (_iter1 st) = 3%nat /\ pulled (_iter2 st) = 2%nat.
Proof. repeat split. Qed.

(** * Further properties of the engine *)

(** ** What [compare] has done when it returns *)

(** X1: [compare] never delivers anything synchronously.  When it returns
    (or throws because of a source), whatever the two sources are, the
    deferred is pending, the accumulator is empty, no notification has been
    sent, each source has been called at most once, and at most one chain
    waits for the event loop. *)
Theorem compare_returns_pending {R : Type} (c : cmp_fn) (x : extract_fn R)
    (it1 it2 : iterator) :
  let st := started c x it1 it2 in
  _deferred st = Some Pending /\ _results st = [] /\ notified st = [] /\
  (pulled (_iter1 st) <= S (pulled it1))%nat /\
  (pulled (_iter2 st) <= S (pulled it2))%nat /\
  (length (queue st) <= 1)%nat /\
  (fst (compare it1 it2 (create c x)) = Ok tt <-> length (queue st) = 1%nat).
Proof.
  unfold started, compare, create. unfold_methods.
  by_cases; repeat split; auto; try lia; try discriminate.
Qed.

(** ** One chain at a time, and a final state *)

Section Terminal.

Context {R : Type}.
Implicit Types st : engine R.

Lemma settled_not_pending st :
  settled st = true -> _deferred st <> Some Pending.
Proof. unfold settled. destruct (_deferred st) as [[ | | ] | ]; congruence. Qed.

(** X2: single flight and irreversibility.  In every reachable state at
    most one chain waits, and only while the deferred is pending; once the
    deferred is resolved or rejected nothing waits and the instance (its
    deferred, accumulator, notifications and sources) never changes again,
    in particular it is settled exactly once. *)
Theorem settled_is_final (c : cmp_fn) (x : extract_fn R) (it1 it2 : iterator)
    (n : nat) :
  let st := run n (started c x it1 it2) in
  (length (queue st) <= 1)%nat /\
  (queue st <> [] -> _deferred st = Some Pending) /\
  (settled st = true -> queue st = [] /\ forall m, run m st = st).
Proof.
  intros st.
  assert (W : well_formed st) by apply run_well_formed, started_well_formed.
  destruct W as [_ [[Hq Hd] | [(t & Hq) Hd]]].
  - split; [rewrite Hq; simpl; lia | ]. split.
    + intros N. contradiction.
    + intros _. split; [exact Hq | ]. intros m. now apply run_idle.
  - split; [rewrite Hq; simpl; lia | ]. split.
    + intros _. exact Hd.
    + intros S. apply settled_not_pending in S. contradiction.
Qed.

End Terminal.

(** ** Laziness *)

Section Lazy.

Context {R : Type}.
Implicit Types st : engine R.





End Lazy.

(** ** The default extractor inside the engine *)

(** X10: with the default extractor, a callback never fails because of the
    extractor ([InvalidExtractionError] cannot come from the engine): when
    [_compareValues] throws, the comparator threw that error, or the call
    of one of the two sources did. *)
Theorem default_extractor_never_fails (v1 v2 : val) (e : error)
    (st : engine DiffRecord) :
  extractFn st = defaultExtract -> _deferred st = Some Pending ->
  fst (_compareValues v1 v2 st) = Throw e ->
  compareFn st v1 v2 = Throw e \/
  fst (callIter (_iter1 st)) = Throw e \/
  fst (callIter (_iter2 st)) = Throw e.
Proof.
  intros X H. destruct st as [c x d i1 i2 res q ns]. simpl in *. subst d x.
  unfold_methods. unfold defaultExtract.
  by_cases; absurd_case; intros E; try discriminate E; injection E as <-; auto.
Qed.

Lemma default_extractor_never_fails_witness :
  let boom := Error "boom" in
  let st := started (fun _ _ => Throw boom) defaultExtract
              (of_list []) (of_list []) in
  compareFn st (VNum 1) (VNum 2) = Throw boom \/
  fst (callIter (_iter1 st)) = Throw boom \/
  fst (callIter (_iter2 st)) = Throw boom.
Proof.
  intros boom st.
  apply (default_extractor_never_fails (VNum 1) (VNum 2) boom st); reflexivity.
Defined.

(** ** The two shapes of source *)

Section Shapes.

Context {R : Type}.
Implicit Types st : engine R.









End Shapes.

(** ** Progress, turn by turn *)

Section Progress_by_turn.

Variables (cf : cmp_fn) (cmp : val -> val -> Z).
Variables (sh1 sh2 : shape) (beh1 beh2 : nat -> pull).

Let live := running cf sh1 sh2 beh1 beh2.

Lemma firstn_progress (acc : list DiffRecord) r rest n :
  (acc ++ [r]) ++ firstn n rest = acc ++ firstn (S n) (r :: rest).
Proof. simpl. now rewrite <- app_assoc. Qed.

Lemma prefixes_step (acc : list DiffRecord) ns r :
  ns = nonempty_prefixes acc ->
  ns ++ [acc ++ [r]] = nonempty_prefixes (acc ++ [r]).
Proof. intros ->. now rewrite nonempty_prefixes_snoc. Qed.

Ltac first_turn Hns :=
  split; [reflexivity | split; [reflexivity | ]];
  cbn [run notified _results running finished];
  rewrite ?(prefixes_step _ _ _ Hns); congruence.

(** After [n] more turns the accumulator holds the records so far and the
    first [n + 1] records of the comparison still to be made, the deferred
    is pending until all of them are there, and one notification has been
    sent for each record. *)
Lemma progress_from_values (n : nat) :
  forall (A B : list val) v1 v2 k1 k2 acc ns,
    held beh1 k1 v1 A -> held beh2 k2 v2 B ->
    (forall a b, In a A -> In b B -> cf a b = Ok (cmp a b)) ->
    ns = nonempty_prefixes acc ->
    let res := sorted_merge_compare cmp A B in
    let st := run n (callback (_compareValues v1 v2) (live k1 k2 acc [] ns)) in
    _results st = acc ++ firstn (S n) res /\
    _deferred st = (if (n <? length res)%nat then Some Pending
                    else Some (Resolved (acc ++ res))) /\
    notified st = nonempty_prefixes (_results st).
Proof.
  induction n as [ | n IH]; intros A B v1 v2 k1 k2 acc ns H1 H2 Hc Hns;
    destruct A as [ | a A']; destruct B as [ | b B']; cbv zeta.
  1, 5: simpl in H1, H2; unfold live; rewrite step_done by assumption;
        rewrite run_idle by reflexivity; simpl; rewrite app_nil_r;
        repeat split; exact Hns.
  - destruct H2 as (-> & Tb & Y2). simpl in H1.
    destruct (yields_held _ _ _ Y2) as (v' & p & W & O & H').
    unfold live. rewrite (step_right_only _ _ _ _ _ v1 b p) by assumption.
    rewrite sorted_merge_compare_nil_l. first_turn Hns.
  - destruct H1 as (-> & Ta & Y1). simpl in H2.
    destruct (yields_held _ _ _ Y1) as (v' & p & W & O & H').
    unfold live. rewrite (step_left_only _ _ _ _ _ a v2 p) by assumption.
    rewrite sorted_merge_compare_nil_r. first_turn Hns.
  - destruct H1 as (-> & Ta & Y1). destruct H2 as (-> & Tb & Y2).
    assert (C : cf a b = Ok (cmp a b)) by (apply Hc; now left).
    destruct (Z.lt_trichotomy (cmp a b) 0) as [L | [E0 | G]].
    + destruct (yields_held _ _ _ Y1) as (v1' & p1 & W1 & O1 & H1').
      unfold live. rewrite (step_less _ _ _ _ _ a b (cmp a b) p1) by assumption.
      rewrite (merge_less cmp) by assumption. first_turn Hns.
    + destruct (yields_held _ _ _ Y1) as (v1' & p1 & W1 & O1 & H1').
      destruct (yields_held _ _ _ Y2) as (v2' & p2 & W2 & O2 & H2').
      rewrite E0 in C. unfold live.
      rewrite (step_equal _ _ _ _ _ a b p1 p2) by assumption.
      rewrite (merge_equal cmp) by assumption. first_turn Hns.
    + destruct (yields_held _ _ _ Y2) as (v2' & p2 & W2 & O2 & H2').
      unfold live. rewrite (step_greater _ _ _ _ _ a b (cmp a b) p2) by assumption.
      rewrite (merge_greater cmp) by assumption. first_turn Hns.
  - destruct H2 as (-> & Tb & Y2). simpl in H1.
    destruct (yields_held _ _ _ Y2) as (v' & p & W & O & H').
    unfold live. rewrite (step_right_only _ _ _ _ _ v1 b p) by assumption.
    rewrite run_tick, (tick_running _ _ _ _ _ _ VUndefined v')
      by now apply awaited_right.
    destruct (IH [] B' VUndefined v' k1 (S k2) (acc ++ [right_record b])
                (ns ++ [acc ++ [right_record b]]) eq_refl H'
                ltac:(intros a0 b0 []) (prefixes_step _ _ _ Hns))
      as (Er & Ed & En).
    unfold live in Er, Ed, En. refine (conj _ (conj _ En)).
    + rewrite Er, !sorted_merge_compare_nil_l. simpl map.
      now rewrite firstn_progress.
    + rewrite Ed, !sorted_merge_compare_nil_l. simpl map.
      now rewrite <- app_assoc.
  - destruct H1 as (-> & Ta & Y1). simpl in H2.
    destruct (yields_held _ _ _ Y1) as (v' & p & W & O & H').
    unfold live. rewrite (step_left_only _ _ _ _ _ a v2 p) by assumption.
    rewrite run_tick, (tick_running _ _ _ _ _ _ v' VUndefined)
      by now apply awaited_left.
    destruct (IH A' [] v' VUndefined (S k1) k2 (acc ++ [left_record a])
                (ns ++ [acc ++ [left_record a]]) H' eq_refl
                ltac:(intros a0 b0 _ []) (prefixes_step _ _ _ Hns))
      as (Er & Ed & En).
    unfold live in Er, Ed, En. refine (conj _ (conj _ En)).
    + rewrite Er, !sorted_merge_compare_nil_r. simpl map.
      now rewrite firstn_progress.
    + rewrite Ed, !sorted_merge_compare_nil_r. simpl map.
      now rewrite <- app_assoc.
  - destruct H1 as (-> & Ta & Y1). destruct H2 as (-> & Tb & Y2).
    assert (C : cf a b = Ok (cmp a b)) by (apply Hc; now left).
    destruct (Z.lt_trichotomy (cmp a b) 0) as [L | [E0 | G]].
    + destruct (yields_held _ _ _ Y1) as (v1' & p1 & W1 & O1 & H1').
      unfold live. rewrite (step_less _ _ _ _ _ a b (cmp a b) p1) by assumption.
      rewrite run_tick, (tick_running _ _ _ _ _ _ v1' b)
        by now apply awaited_left.
      destruct (IH A' (b :: B') v1' b (S k1) k2 (acc ++ [left_record a])
                  (ns ++ [acc ++ [left_record a]]) H1'
                  (conj eq_refl (conj Tb Y2))
                  ltac:(intros a0 b0 Ia Ib; apply Hc; [now right | assumption])
                  (prefixes_step _ _ _ Hns))
        as (Er & Ed & En).
      unfold live in Er, Ed, En. refine (conj _ (conj _ En)).
      * rewrite Er, (merge_less cmp a A' b B') by assumption.
        now rewrite firstn_progress.
      * rewrite Ed, (merge_less cmp a A' b B') by assumption.
        now rewrite <- app_assoc.
    + destruct (yields_held _ _ _ Y1) as (v1' & p1 & W1 & O1 & H1').
      destruct (yields_held _ _ _ Y2) as (v2' & p2 & W2 & O2 & H2').
      rewrite E0 in C. unfold live.
      rewrite (step_equal _ _ _ _ _ a b p1 p2) by assumption.
      rewrite run_tick, (tick_running _ _ _ _ _ _ v1' v2')
        by now apply awaited_both.
      destruct (IH A' B' v1' v2' (S k1) (S k2) (acc ++ [both_record a])
                  (ns ++ [acc ++ [both_record a]]) H1' H2'
                  ltac:(intros a0 b0 Ia Ib; apply Hc; now right)
                  (prefixes_step _ _ _ Hns))
        as (Er & Ed & En).
      unfold live in Er, Ed, En. refine (conj _ (conj _ En)).
      * rewrite Er, (merge_equal cmp a A' b B') by assumption.
        now rewrite firstn_progress.
      * rewrite Ed, (merge_equal cmp a A' b B') by assumption.
        now rewrite <- app_assoc.
    + destruct (yields_held _ _ _ Y2) as (v2' & p2 & W2 & O2 & H2').
      unfold live. rewrite (step_greater _ _ _ _ _ a b (cmp a b) p2) by assumption.
      rewrite run_tick, (tick_running _ _ _ _ _ _ a v2')
        by now apply awaited_right.
      destruct (IH (a :: A') B' a v2' k1 (S k2) (acc ++ [right_record b])
                  (ns ++ [acc ++ [right_record b]])
                  (conj eq_refl (conj Ta Y1)) H2'
                  ltac:(intros a0 b0 Ia Ib; apply Hc; [assumption | now right])
                  (prefixes_step _ _ _ Hns))
        as (Er & Ed & En).
      unfold live in Er, Ed, En. refine (conj _ (conj _ En)).
      * rewrite Er, (merge_greater cmp a A' b B') by assumption.
        now rewrite firstn_progress.
      * rewrite Ed, (merge_greater cmp a A' b B') by assumption.
        now rewrite <- app_assoc.
Qed.

End Progress_by_turn.

Lemma started_running (cf : cmp_fn) (sh1 sh2 : shape) (beh1 beh2 : nat -> pull)
    (p1 p2 : promise) :
  wrap (beh1 0%nat) = Ok p1 -> wrap (beh2 0%nat) = Ok p2 ->
  started cf defaultExtract
    (Iter sh1 {| behaviour := beh1; pulls := 0 |})
    (Iter sh2 {| behaviour := beh2; pulls := 0 |}) =
  running cf sh1 sh2 beh1 beh2 1 1 [] [ThenBoth p1 p2] [].
Proof.
  intros W1 W2.
  exact (started_running_with cf defaultExtract sh1 sh2 beh1 beh2 p1 p2 W1 W2).
Qed.

(** X4: records are delivered one turn of the event loop at a time.  For
    two sources delivering [A] and [B], after [k] turns the accumulator is
    exactly the first [k] records of the final result, [k] notifications
    have been sent, and the promise is still pending; it resolves at turn
    [length res + 1], not before. *)
Theorem one_record_per_turn (cf : cmp_fn) (cmp : val -> val -> Z)
    (sh1 sh2 : shape) (beh1 beh2 : nat -> pull) (A B : list val) (k : nat) :
  yields beh1 0 A -> yields beh2 0 B ->
  (forall a b, In a A -> In b B -> cf a b = Ok (cmp a b)) ->
  let res := sorted_merge_compare cmp A B in
  let st := run k (started cf defaultExtract
                     (Iter sh1 {| behaviour := beh1; pulls := 0 |})
                     (Iter sh2 {| behaviour := beh2; pulls := 0 |})) in
  _results st = firstn k res /\
  notified st = nonempty_prefixes (firstn k res) /\
  _deferred st = if (k <=? length res)%nat then Some Pending
                 else Some (Resolved res).
Proof.
  intros Y1 Y2 Hc res st.
  assert (E : _results st = firstn k res /\
              _deferred st = (if (k <=? length res)%nat then Some Pending
                              else Some (Resolved res)) /\
              notified st = nonempty_prefixes (_results st)).
  { destruct (yields_held _ _ _ Y1) as (v1 & p1 & W1 & O1 & H1).
    destruct (yields_held _ _ _ Y2) as (v2 & p2 & W2 & O2 & H2).
    subst st. rewrite (started_running cf sh1 sh2 beh1 beh2 p1 p2 W1 W2).
    destruct k as [ | k]; [repeat split | ].
    rewrite run_tick, (tick_running _ _ _ _ _ _ v1 v2) by now apply awaited_both.
    destruct (progress_from_values cf cmp sh1 sh2 beh1 beh2 k A B v1 v2
                1%nat 1%nat [] [] H1 H2 Hc eq_refl) as (Er & Ed & En).
    refine (conj _ (conj _ En)).
    - rewrite Er. reflexivity.
    - rewrite Ed. reflexivity. }
  destruct E as (Er & Ed & En). repeat split; auto.
  now rewrite <- Er.
Qed.

Lemma one_record_per_turn_witness :
  let A := [VNum 1; VNum 3; VNum 5; VNum 7] in
  let B := [VNum 3; VNum 4; VNum 5; VNum 8] in
  _results (run 2 (started (defaultCmp plain_host) defaultExtract
                     (of_list A) (of_list B)))
    = [left_record (VNum 1); both_record (VNum 3)].
Proof.
  intros A B.
  apply (one_record_per_turn (defaultCmp plain_host) natural Callable Callable
           (list_behaviour A) (list_behaviour B) A B 2).
  - cbn. repeat (split; [reflexivity | ]). exists VUndefined. split; reflexivity.
  - cbn. repeat (split; [reflexivity | ]). exists VUndefined. split; reflexivity.
  - intros a b _ _. apply natural_defaultCmp.
Defined.

(** ** One source empty *)

(** X6: when one source is empty the comparator is never called: whatever
    the comparator is (even one that always throws), every element of the
    other source gets a record of its side, in order. *)
Theorem one_side_empty (cf : cmp_fn) (sh1 sh2 : shape)
    (none some : nat -> pull) (B : list val) (n : nat) :
  yields none 0 [] -> yields some 0 B -> (length B < n)%nat ->
  _deferred (run n (started cf defaultExtract
                      (Iter sh1 {| behaviour := none; pulls := 0 |})
                      (Iter sh2 {| behaviour := some; pulls := 0 |})))
    = Some (Resolved (map right_record B)) /\
  _deferred (run n (started cf defaultExtract
                      (Iter sh1 {| behaviour := some; pulls := 0 |})
                      (Iter sh2 {| behaviour := none; pulls := 0 |})))
    = Some (Resolved (map left_record B)).
Proof.
  intros Y0 Y Hn. split.
  - destruct (run_from_start cf (fun _ _ => 0) sh1 sh2 none some [] B n Y0 Y
                ltac:(intros a b []) ltac:(simpl; lia)) as (ns & E).
    rewrite sorted_merge_compare_nil_l in E. now rewrite E.
  - destruct (run_from_start cf (fun _ _ => 0) sh1 sh2 some none B [] n Y Y0
                ltac:(intros a b _ []) ltac:(simpl; lia)) as (ns & E).
    rewrite sorted_merge_compare_nil_r in E. now rewrite E.
Qed.

Lemma one_side_empty_witness :
  _deferred (run 4 (started (fun _ _ => Throw (Error "never called")) defaultExtract
                      (of_list []) (of_list [VNum 3; VNum 4; VNum 5])))
    = Some (Resolved [right_record (VNum 3); right_record (VNum 4);
                      right_record (VNum 5)]).
Proof.
  apply (one_side_empty (fun _ _ => Throw (Error "never called"))
           Callable Callable (list_behaviour [])
           (list_behaviour [VNum 3; VNum 4; VNum 5])
           [VNum 3; VNum 4; VNum 5] 4).
  - exists VUndefined. split; reflexivity.
  - cbn. repeat (split; [reflexivity | ]). exists VUndefined. split; reflexivity.
  - simpl. lia.
Defined.

(** ** A sequence compared with itself *)

Lemma yields_truthy (beh : nat -> pull) (k : nat) (A : list val) :
  yields beh k A -> forall a, In a A -> truthy a = true.
Proof.
  revert k. induction A as [ | a0 A IH]; intros k Y a Ha; [destruct Ha | ].
  destruct Y as (_ & T & Y). destruct Ha as [<- | Ha]; [exact T | eauto].
Qed.

Section SelfRun.

Variables (cf : cmp_fn) (sh1 sh2 : shape) (beh1 beh2 : nat -> pull).

Let live := running cf sh1 sh2 beh1 beh2.
Let over := finished cf sh1 sh2 beh1 beh2.

Lemma run_same_values (A : list val) :
  forall v1 v2 k1 k2 acc ns n,
    held beh1 k1 v1 A -> held beh2 k2 v2 A ->
    (forall a, In a A -> cf a a = Ok 0) ->
    (length A <= n)%nat ->
    exists ns',
      run n (callback (_compareValues v1 v2) (live k1 k2 acc [] ns)) =
      over (k1 + length A) (k2 + length A) (acc ++ map both_record A) ns'.
Proof.
  induction A as [ | a A IH]; intros v1 v2 k1 k2 acc ns n H1 H2 Hc Hn.
  - simpl in H1, H2. unfold live. rewrite step_done by assumption.
    rewrite run_idle by reflexivity. exists ns. unfold over. simpl.
    now rewrite app_nil_r, !Nat.add_0_r.
  - destruct H1 as (-> & Ta & Y1). destruct H2 as (-> & _ & Y2).
    destruct (yields_held _ _ _ Y1) as (v1' & p1 & W1 & O1 & H1').
    destruct (yields_held _ _ _ Y2) as (v2' & p2 & W2 & O2 & H2').
    destruct n as [ | n]; [simpl in Hn; lia | ].
    unfold live.
    rewrite (step_equal _ _ _ _ _ a a p1 p2)
      by (assumption || (apply Hc; now left)).
    rewrite run_tick, (tick_running _ _ _ _ _ _ v1' v2')
      by now apply awaited_both.
    destruct (IH v1' v2' (S k1) (S k2) (acc ++ [both_record a])
                (ns ++ [acc ++ [both_record a]]) n H1' H2'
                ltac:(intros a0 Ia; apply Hc; now right)
                ltac:(simpl in Hn; lia)) as (ns' & E).
    exists ns'. unfold live in E. rewrite E. unfold over.
    rewrite <- app_assoc. simpl. f_equal; lia.
Qed.

End SelfRun.

(** X7: a sequence compared with itself gives only [both] records.  With
    the default comparator (whatever the host does on mixed operands) and
    the default extractor, two sources delivering the same sequence [A]
    resolve with one [both] record for each element of [A], in order;
    [A] need not be sorted. *)
Theorem self_comparison (host_lt : val -> val -> result bool)
    (sh1 sh2 : shape) (beh1 beh2 : nat -> pull) (A : list val) (n : nat) :
  yields beh1 0 A -> yields beh2 0 A -> (length A < n)%nat ->
  _deferred (run n (started (defaultCmp host_lt) defaultExtract
                      (Iter sh1 {| behaviour := beh1; pulls := 0 |})
                      (Iter sh2 {| behaviour := beh2; pulls := 0 |})))
    = Some (Resolved (map both_record A)).
Proof.
  intros Y1 Y2 Hn.
  destruct (yields_held _ _ _ Y1) as (v1 & p1 & W1 & O1 & H1).
  destruct (yields_held _ _ _ Y2) as (v2 & p2 & W2 & O2 & H2).
  rewrite (started_running _ sh1 sh2 beh1 beh2 p1 p2 W1 W2).
  destruct n as [ | n]; [lia | ].
  rewrite run_tick, (tick_running _ _ _ _ _ _ v1 v2) by now apply awaited_both.
  destruct (run_same_values (defaultCmp host_lt) sh1 sh2 beh1 beh2 A
              v1 v2 1%nat 1%nat [] [] n H1 H2) as (ns & E).
  - intros a Ha. unfold defaultCmp.
    now rewrite strict_eq_refl
      by (apply truthy_not_NaN; eapply yields_truthy; eauto).
  - lia.
  - rewrite E. reflexivity.
Qed.

Lemma self_comparison_witness :
  let A := [VStr "b"; VNum 2; VObj 7; VStr "a"] in
  _deferred (run 5 (started (defaultCmp (fun _ _ => Throw (Error "mixed")))
                      defaultExtract (of_list A) (of_list A)))
    = Some (Resolved (map both_record A)).
Proof.
  intros A.
  apply (self_comparison (fun _ _ => Throw (Error "mixed")) Callable Callable
           (list_behaviour A) (list_behaviour A) A 5).
  - cbn. repeat (split; [reflexivity | ]). exists VUndefined. split; reflexivity.
  - cbn. repeat (split; [reflexivity | ]). exists VUndefined. split; reflexivity.
  - simpl. lia.
Defined.

(** ** The size of the result *)

Lemma merge_length (cmp : val -> val -> Z) (A B : list val) :
  (length (sorted_merge_compare cmp A B)
   + length (tagged "both" (sorted_merge_compare cmp A B))
   = length A + length B)%nat.
Proof.
  revert A B. apply (merge_cases_ind cmp).
  - intros B. rewrite sorted_merge_compare_nil_l, tagged_both_rights.
    rewrite length_map. simpl. lia.
  - intros a A. rewrite sorted_merge_compare_nil_r, tagged_both_lefts.
    rewrite length_map. simpl. lia.
  - intros a A b B E IH. rewrite merge_equal by assumption.
    change (tagged "both" (both_record a :: sorted_merge_compare cmp A B))
      with (a :: tagged "both" (sorted_merge_compare cmp A B)).
    simpl length in *. lia.
  - intros a A b B L IH. rewrite merge_less by assumption.
    change (tagged "both" (left_record a :: sorted_merge_compare cmp A (b :: B)))
      with (tagged "both" (sorted_merge_compare cmp A (b :: B))).
    simpl length in *. lia.
  - intros a A b B G IH. rewrite merge_greater by assumption.
    change (tagged "both" (right_record b :: sorted_merge_compare cmp (a :: A) B))
      with (tagged "both" (sorted_merge_compare cmp (a :: A) B)).
    simpl length in *. lia.
Qed.

Lemma tagged_length_le (t : string) (res : list DiffRecord) :
  (length (tagged t res) <= length res)%nat.
Proof. unfold tagged. rewrite length_map. apply filter_length_le. Qed.

Lemma both_length_le (cmp : val -> val -> Z) (A B : list val) :
  (length (tagged "both" (sorted_merge_compare cmp A B)) <= length A)%nat /\
  (length (tagged "both" (sorted_merge_compare cmp A B)) <= length B)%nat.
Proof.
  revert A B. apply (merge_cases_ind cmp).
  - intros B. rewrite sorted_merge_compare_nil_l, tagged_both_rights. simpl. lia.
  - intros a A. rewrite sorted_merge_compare_nil_r, tagged_both_lefts. simpl. lia.
  - intros a A b B E IH. rewrite merge_equal by assumption.
    change (tagged "both" (both_record a :: sorted_merge_compare cmp A B))
      with (a :: tagged "both" (sorted_merge_compare cmp A B)).
    simpl length in *. lia.
  - intros a A b B L IH. rewrite merge_less by assumption.
    change (tagged "both" (left_record a :: sorted_merge_compare cmp A (b :: B)))
      with (tagged "both" (sorted_merge_compare cmp A (b :: B))).
    simpl length in *. lia.
  - intros a A b B G IH. rewrite merge_greater by assumption.
    change (tagged "both" (right_record b :: sorted_merge_compare cmp (a :: A) B))
      with (tagged "both" (sorted_merge_compare cmp (a :: A) B)).
    simpl length in *. lia.
Qed.

(** X9: the size of the result.  The comparison of [A] and [B] resolves
    with [length A + length B] records minus one for each [both] record:
    at least as many as the longer sequence, at most as many as both
    together, whether or not the sequences are sorted. *)
Theorem result_size (cf : cmp_fn) (cmp : val -> val -> Z)
    (sh1 sh2 : shape) (beh1 beh2 : nat -> pull) (A B : list val) (n : nat) :
  yields beh1 0 A -> yields beh2 0 B ->
  (forall a b, In a A -> In b B -> cf a b = Ok (cmp a b)) ->
  (length A + length B < n)%nat ->
  exists res,
    _deferred (run n (started cf defaultExtract
                        (Iter sh1 {| behaviour := beh1; pulls := 0 |})
                        (Iter sh2 {| behaviour := beh2; pulls := 0 |})))
      = Some (Resolved res) /\
    (length res + length (tagged "both" res) = length A + length B)%nat /\
    (Nat.max (length A) (length B) <= length res <= length A + length B)%nat.
Proof.
  intros Y1 Y2 Hc Hn.
  destruct (run_from_start cf cmp sh1 sh2 beh1 beh2 A B n Y1 Y2 Hc Hn)
    as (ns & E).
  exists (sorted_merge_compare cmp A B). rewrite E.
  pose proof (merge_length cmp A B). pose proof (both_length_le cmp A B).
  repeat split; try assumption; lia.
Qed.

Lemma result_size_witness :
  let A := [VNum 1; VNum 3; VNum 5; VNum 7] in
  let B := [VNum 3; VNum 4; VNum 5; VNum 8] in
  exists res,
    _deferred (run 9 (started (defaultCmp plain_host) defaultExtract
                        (of_list A) (of_list B))) = Some (Resolved res) /\
    (length res + length (tagged "both" res) = 8)%nat /\
    (4 <= length res <= 8)%nat.
Proof.
  intros A B.
  apply (result_size (defaultCmp plain_host) natural Callable Callable
           (list_behaviour A) (list_behaviour B) A B 9).
  - cbn. repeat (split; [reflexivity | ]). exists VUndefined. split; reflexivity.
  - cbn. repeat (split; [reflexivity | ]). exists VUndefined. split; reflexivity.
  - intros a b _ _. apply natural_defaultCmp.
  - simpl. lia.
Defined.

(** ** Exchanging the two sources *)

Lemma flips_cases (cmp : val -> val -> Z) (L : list val) (x y : val) :
  flips_on cmp L = true -> In x L -> In y L ->
  (cmp x y < 0 /\ 0 < cmp y x) \/ (cmp x y = 0 /\ cmp y x = 0) \/
  (0 < cmp x y /\ cmp y x < 0).
Proof.
  intros F Hx Hy. unfold flips_on in F.
  rewrite forallb_forall in F. specialize (F x Hx).
  rewrite forallb_forall in F. specialize (F y Hy).
  apply Z.eqb_eq in F.
  destruct (Z.sgn_spec (cmp x y)) as [[? E1] | [[? E1] | [? E1]]];
    destruct (Z.sgn_spec (cmp y x)) as [[? E2] | [[? E2] | [? E2]]];
    rewrite E1, E2 in F; lia.
Qed.

Lemma mirrored_rights_lefts (cmp : val -> val -> Z) (B : list val) :
  Forall2 (mirrored cmp) (map right_record B) (map left_record B).
Proof. induction B; simpl; constructor; auto. split; reflexivity. Qed.

Lemma mirrored_lefts_rights (cmp : val -> val -> Z) (A : list val) :
  Forall2 (mirrored cmp) (map left_record A) (map right_record A).
Proof. induction A; simpl; constructor; auto. split; reflexivity. Qed.

Lemma merge_mirrored (cmp : val -> val -> Z) (L : list val) (A B : list val) :
  flips_on cmp L = true -> incl A L -> incl B L ->
  Forall2 (mirrored cmp) (sorted_merge_compare cmp A B)
                         (sorted_merge_compare cmp B A).
Proof.
  intros F. pattern A, B. revert A B. apply (merge_cases_ind cmp).
  - intros B IA IB.
    rewrite sorted_merge_compare_nil_l, sorted_merge_compare_nil_r.
    apply mirrored_rights_lefts.
  - intros a A IA IB.
    rewrite sorted_merge_compare_nil_l, sorted_merge_compare_nil_r.
    apply mirrored_lefts_rights.
  - intros a A b B E IH IA IB.
    destruct (flips_cases cmp L a b F (IA a (or_introl eq_refl))
                (IB b (or_introl eq_refl))) as [? | [[_ E'] | ?]]; try lia.
    rewrite (merge_equal cmp a A b B), (merge_equal cmp b B a A) by assumption.
    constructor.
    + split; [reflexivity | exact E].
    + apply IH; eapply incl_tail; eassumption.
  - intros a A b B Lt IH IA IB.
    destruct (flips_cases cmp L a b F (IA a (or_introl eq_refl))
                (IB b (or_introl eq_refl))) as [[_ G] | [? | ?]]; try lia.
    rewrite (merge_less cmp a A b B), (merge_greater cmp b B a A) by assumption.
    constructor.
    + split; reflexivity.
    + apply IH; [eapply incl_tail; eassumption | assumption].
  - intros a A b B Gt IH IA IB.
    destruct (flips_cases cmp L a b F (IA a (or_introl eq_refl))
                (IB b (or_introl eq_refl))) as [? | [? | [_ Lt]]]; try lia.
    rewrite (merge_greater cmp a A b B), (merge_less cmp b B a A) by assumption.
    constructor.
    + split; reflexivity.
    + apply IH; [assumption | eapply incl_tail; eassumption].
Qed.

(** X8: exchanging the two sources mirrors the result.  When the
    comparator answers with opposite signs on exchanged arguments,
    [compare(B, A)] resolves with the records of [compare(A, B)] in the same
    order with [left] and [right] exchanged: a [left] or [right] record
    keeps its value, a [both] record carries the equal element of the other
    source (each [both] record carries the value of its own left source). *)
Theorem exchange_mirrors (cf : cmp_fn) (cmp : val -> val -> Z)
    (sh1 sh2 : shape) (beh1 beh2 : nat -> pull) (A B : list val) (n : nat) :
  yields beh1 0 A -> yields beh2 0 B ->
  (forall a b, In a (A ++ B) -> In b (A ++ B) -> cf a b = Ok (cmp a b)) ->
  flips_on cmp (A ++ B) = true ->
  (length A + length B < n)%nat ->
  exists res res',
    _deferred (run n (started cf defaultExtract
                        (Iter sh1 {| behaviour := beh1; pulls := 0 |})
                        (Iter sh2 {| behaviour := beh2; pulls := 0 |})))
      = Some (Resolved res) /\
    _deferred (run n (started cf defaultExtract
                        (Iter sh2 {| behaviour := beh2; pulls := 0 |})
                        (Iter sh1 {| behaviour := beh1; pulls := 0 |})))
      = Some (Resolved res') /\
    Forall2 (mirrored cmp) res res'.
Proof.
  intros Y1 Y2 Hc F Hn.
  assert (IA : incl A (A ++ B)) by apply incl_appl, incl_refl.
  assert (IB : incl B (A ++ B)) by apply incl_appr, incl_refl.
  destruct (run_from_start cf cmp sh1 sh2 beh1 beh2 A B n Y1 Y2
              ltac:(intros a b Ha Hb; apply Hc; [now apply IA | now apply IB])
              Hn) as (ns & E).
  destruct (run_from_start cf cmp sh2 sh1 beh2 beh1 B A n Y2 Y1
              ltac:(intros a b Ha Hb; apply Hc; [now apply IB | now apply IA])
              ltac:(lia)) as (ns' & E').
  exists (sorted_merge_compare cmp A B), (sorted_merge_compare cmp B A).
  rewrite E, E'. repeat split.
  now apply (merge_mirrored cmp (A ++ B)).
Qed.

Lemma exchange_mirrors_witness :
  let A := [VNum 1; VNum 3; VNum 5; VNum 7] in
  let B := [VNum 3; VNum 4; VNum 5; VNum 8] in
  exists res res',
    _deferred (run 9 (started (defaultCmp plain_host) defaultExtract
                        (of_list A) (of_list B))) = Some (Resolved res) /\
    _deferred (run 9 (started (defaultCmp plain_host) defaultExtract
                        (of_list B) (of_list A))) = Some (Resolved res') /\
    Forall2 (mirrored natural) res res'.
Proof.
  intros A B.
  apply (exchange_mirrors (defaultCmp plain_host) natural Callable Callable
           (list_behaviour A) (list_behaviour B) A B 9).
  - cbn. repeat (split; [reflexivity | ]). exists VUndefined. split; reflexivity.
  - cbn. repeat (split; [reflexivity | ]). exists VUndefined. split; reflexivity.
  - intros a b _ _. apply natural_defaultCmp.
  - vm_compute. reflexivity.
  - simpl. lia.
Defined.

(** * Further properties of the default comparator *)

(** X13: what [defaultCmp] returns.  When it returns, the result is [-1],
    [0] or [1], and it is [0] exactly when [a === b]; it returns (does not
    throw) on two numbers and on two strings, whatever the host. *)
Theorem defaultCmp_values (host_lt : val -> val -> result bool) (a b : val) :
  (forall c, defaultCmp host_lt a b = Ok c ->
     (c = -1 \/ c = 0 \/ c = 1) /\ (c = 0 <-> strict_eq a b = true)) /\
  (is_string a && is_string b = true -> exists c, defaultCmp host_lt a b = Ok c) /\
  (forall x y, a = VNum x -> b = VNum y -> exists c, defaultCmp host_lt a b = Ok c).
Proof.
  unfold defaultCmp. repeat split.
  - destruct (strict_eq a b); [injection H as <-; auto | ].
    destruct (js_lt host_lt a b) as [[ | ] | ]; [ | | discriminate];
      injection H as <-; auto.
  - intros ->. revert H. destruct (strict_eq a b); [reflexivity | ].
    destruct (js_lt host_lt a b) as [[ | ] | ]; discriminate.
  - intros E. revert H. rewrite E. intros H. now injection H as <-.
  - destruct a, b; try discriminate. intros _.
    destruct (strict_eq (VStr s) (VStr s0)); simpl; eauto.
  - intros x y -> ->. destruct (strict_eq (VNum x) (VNum y)); simpl; eauto.
Qed.

(** ** Strings *)

Lemma ascii_compare_refl (a : Ascii.ascii) : Ascii.compare a a = Eq.
Proof. unfold Ascii.compare. apply N.compare_refl. Qed.

Lemma string_compare_refl (s : string) : String.compare s s = Eq.
Proof.
  induction s as [ | a s IH]; simpl; [reflexivity | ].
  now rewrite ascii_compare_refl.
Qed.

Lemma string_compare_not_gt_trans (s t u : string) :
  String.compare s t <> Gt -> String.compare t u <> Gt ->
  String.compare s u <> Gt.
Proof.
  revert t u. induction s as [ | a s IH]; intros [ | b t] [ | c u]; simpl;
    try congruence.
  unfold Ascii.compare.
  destruct (N.compare_spec (Ascii.N_of_ascii a) (Ascii.N_of_ascii b));
    destruct (N.compare_spec (Ascii.N_of_ascii b) (Ascii.N_of_ascii c));
    destruct (N.compare_spec (Ascii.N_of_ascii a) (Ascii.N_of_ascii c));
    try congruence; try lia.
  apply IH.
Qed.

(** The default comparator on two strings is the comparison of the
    strings. *)
Lemma natural_strings (s t : string) :
  natural (VStr s) (VStr t) =
  match String.compare s t with Eq => 0 | Lt => -1 | Gt => 1 end.
Proof.
  unfold natural, defaultCmp, js_lt, String.ltb. simpl.
  destruct (String.eqb_spec s t) as [-> | N].
  - now rewrite string_compare_refl.
  - destruct (String.compare s t) eqn:E; try reflexivity.
    apply String.compare_eq_iff in E. contradiction.
Qed.

Lemma total_order_consistent_intro (cmp : val -> val -> Z) (L : list val) :
  (forall x y, In x L -> In y L -> Z.sgn (cmp y x) = - Z.sgn (cmp x y)) ->
  (forall x y z, In x L -> In y L -> In z L ->
     cmp x y <= 0 -> cmp y z <= 0 -> cmp x z <= 0) ->
  total_order_consistent cmp L = true.
Proof.
  intros F T. unfold total_order_consistent, flips_on, transitive_on.
  apply andb_true_iff. split.
  - apply forallb_forall. intros x Hx. apply forallb_forall. intros y Hy.
    apply Z.eqb_eq. now apply F.
  - apply forallb_forall. intros x Hx. apply forallb_forall. intros y Hy.
    apply forallb_forall. intros z Hz.
    destruct (Z.leb_spec (cmp x y) 0); simpl; [ | reflexivity].
    destruct (Z.leb_spec (cmp y z) 0); simpl; [ | reflexivity].
    apply Z.leb_le. now apply (T x y z).
Qed.

Lemma is_string_inv (v : val) : is_string v = true -> exists s, v = VStr s.
Proof. destruct v; try discriminate. eauto. Qed.

(** X11: on strings the default comparator is a total order.  For every
    list of strings, [defaultCmp] returns on each pair the comparison of
    the two strings, whatever the host, and these answers are consistent
    with a total order (opposite signs on exchanged arguments, transitive):
    the comparator assumption of the sorted-merge result holds for any
    sources of non-empty strings. *)
Theorem defaultCmp_orders_strings (host_lt : val -> val -> result bool)
    (L : list val) :
  forallb is_string L = true ->
  (forall a b, In a L -> In b L -> defaultCmp host_lt a b = Ok (natural a b)) /\
  total_order_consistent natural L = true.
Proof.
  intros H. rewrite forallb_forall in H. split.
  - intros a b Ha Hb.
    destruct (is_string_inv a (H a Ha)) as (s & ->).
    destruct (is_string_inv b (H b Hb)) as (t & ->).
    unfold natural, defaultCmp. simpl. now destruct (String.eqb s t).
  - apply total_order_consistent_intro.
    + intros x y Hx Hy.
      destruct (is_string_inv x (H x Hx)) as (s & ->).
      destruct (is_string_inv y (H y Hy)) as (t & ->).
      rewrite !natural_strings, (String.compare_antisym s t).
      now destruct (String.compare t s).
    + intros x y z Hx Hy Hz.
      destruct (is_string_inv x (H x Hx)) as (s & ->).
      destruct (is_string_inv y (H y Hy)) as (t & ->).
      destruct (is_string_inv z (H z Hz)) as (u & ->).
      rewrite !natural_strings. intros Hst Htu.
      pose proof (string_compare_not_gt_trans s t u) as T.
      destruct (String.compare s t); destruct (String.compare t u);
        destruct (String.compare s u); try lia;
        exfalso; apply T; congruence.
Qed.

Lemma defaultCmp_orders_strings_witness :
  total_order_consistent natural [VStr "pear"; VStr "apple"; VStr "fig"] = true.
Proof.
  apply (defaultCmp_orders_strings plain_host
           [VStr "pear"; VStr "apple"; VStr "fig"]).
  reflexivity.
Defined.

(** ** Numbers *)

Ltac compare_specs :=
  repeat match goal with
    | H : context [Z.compare ?a ?b] |- _ => destruct (Z.compare_spec a b)
    | |- context [Z.compare ?a ?b] => destruct (Z.compare_spec a b)
    | H : context [Pos.compare_cont Eq ?a ?b] |- _ =>
        change (Pos.compare_cont Eq a b) with (Pos.compare a b) in *
    | |- context [Pos.compare_cont Eq ?a ?b] =>
        change (Pos.compare_cont Eq a b) with (Pos.compare a b) in *
    | H : context [Pos.compare ?a ?b] |- _ => destruct (Pos.compare_spec a b)
    | |- context [Pos.compare ?a ?b] => destruct (Pos.compare_spec a b)
    end.

Lemma SFcompare_antisym (x y : SpecFloat.spec_float) (c : comparison) :
  SpecFloat.SFcompare x y = Some c -> SpecFloat.SFcompare y x = Some (CompOpp c).
Proof.
  destruct x as [[ | ] | [ | ] | | [ | ] m1 e1];
    destruct y as [[ | ] | [ | ] | | [ | ] m2 e2]; simpl;
    intros H; try discriminate H; injection H as <-; try reflexivity;
    f_equal; compare_specs; simpl; try reflexivity; try lia.
Qed.

Lemma SFcompare_not_gt_trans (x y z : SpecFloat.spec_float) (c1 c2 : comparison) :
  SpecFloat.SFcompare x y = Some c1 -> c1 <> Gt ->
  SpecFloat.SFcompare y z = Some c2 -> c2 <> Gt ->
  exists c, SpecFloat.SFcompare x z = Some c /\ c <> Gt.
Proof.
  destruct x as [[ | ] | [ | ] | | [ | ] m1 e1];
    destruct y as [[ | ] | [ | ] | | [ | ] m2 e2];
    destruct z as [[ | ] | [ | ] | | [ | ] m3 e3]; simpl;
    intros H1 N1 H2 N2; try discriminate H1; try discriminate H2;
    injection H1 as <-; injection H2 as <-; try congruence;
    eexists; (split; [reflexivity | ]); try discriminate;
    compare_specs; simpl in *; try congruence; try lia.
Qed.

(** The default comparator on two numbers, by the IEEE comparison. *)
Lemma natural_numbers (x y : float) :
  natural (VNum x) (VNum y) =
  match SpecFloat.SFcompare (FloatOps.Prim2SF x) (FloatOps.Prim2SF y) with
  | Some Eq => 0
  | Some Lt => -1
  | _ => 1
  end.
Proof.
  unfold natural, defaultCmp, js_lt. simpl.
  rewrite FloatAxioms.eqb_spec, FloatAxioms.ltb_spec.
  unfold SpecFloat.SFeqb, SpecFloat.SFltb.
  now destruct (SpecFloat.SFcompare _ _) as [[ | | ] | ].
Qed.

Lemma ordered_numbers_compare (x y : float) :
  is_nan x = false -> is_nan y = false ->
  exists c, SpecFloat.SFcompare (FloatOps.Prim2SF x) (FloatOps.Prim2SF y) = Some c.
Proof.
  unfold is_nan. rewrite !FloatAxioms.eqb_spec. unfold SpecFloat.SFeqb.
  destruct (FloatOps.Prim2SF x) as [[ | ] | [ | ] | | [ | ] m1 e1];
    destruct (FloatOps.Prim2SF y) as [[ | ] | [ | ] | | [ | ] m2 e2]; simpl;
    intros H1 H2; try discriminate; eauto.
Qed.

Lemma is_ordered_number_inv (v : val) :
  is_ordered_number v = true -> exists x, v = VNum x /\ is_nan x = false.
Proof.
  destruct v; try discriminate. simpl. intros H.
  apply negb_true_iff in H. eauto.
Qed.

(** X12: on numbers other than [NaN] the default comparator is a total
    order.  For every list of such numbers (infinities and both zeros
    included), [defaultCmp] returns on each pair, whatever the host, and its
    answers are consistent with a total order (opposite signs on exchanged
    arguments, transitive): the comparator assumption of the sorted-merge
    result holds for any sources of non-zero numbers. *)
Theorem defaultCmp_orders_numbers (host_lt : val -> val -> result bool)
    (L : list val) :
  forallb is_ordered_number L = true ->
  (forall a b, In a L -> In b L -> defaultCmp host_lt a b = Ok (natural a b)) /\
  total_order_consistent natural L = true.
Proof.
  intros H. rewrite forallb_forall in H. split.
  - intros a b Ha Hb.
    destruct (is_ordered_number_inv a (H a Ha)) as (x & -> & _).
    destruct (is_ordered_number_inv b (H b Hb)) as (y & -> & _).
    unfold natural, defaultCmp. simpl. now destruct (PrimFloat.eqb x y).
  - apply total_order_consistent_intro.
    + intros a b Ha Hb.
      destruct (is_ordered_number_inv a (H a Ha)) as (x & -> & Nx).
      destruct (is_ordered_number_inv b (H b Hb)) as (y & -> & Ny).
      rewrite !natural_numbers.
      destruct (ordered_numbers_compare x y Nx Ny) as (c & E).
      rewrite E, (SFcompare_antisym _ _ _ E). now destruct c.
    + intros a b d Ha Hb Hd.
      destruct (is_ordered_number_inv a (H a Ha)) as (x & -> & Nx).
      destruct (is_ordered_number_inv b (H b Hb)) as (y & -> & Ny).
      destruct (is_ordered_number_inv d (H d Hd)) as (z & -> & Nz).
      rewrite !natural_numbers.
      destruct (ordered_numbers_compare x y Nx Ny) as (c1 & E1).
      destruct (ordered_numbers_compare y z Ny Nz) as (c2 & E2).
      rewrite E1, E2. intros L1 L2.
      destruct (SFcompare_not_gt_trans _ _ _ c1 c2 E1
                  ltac:(destruct c1; [discriminate | discriminate | lia]) E2
                  ltac:(destruct c2; [discriminate | discriminate | lia]))
        as (c & E & N).
      rewrite E. destruct c; [lia | lia | congruence].
Qed.

Lemma defaultCmp_orders_numbers_witness :
  total_order_consistent natural
    [VNum 3; VNum (-1.5); VNum infinity; VNum 0; VNum neg_zero] = true.
Proof.
  apply (defaultCmp_orders_numbers plain_host
           [VNum 3; VNum (-1.5); VNum infinity; VNum 0; VNum neg_zero]).
  reflexivity.
Defined.

(** * The comparison of two strictly increasing sequences *)

Lemma filter_all {X : Type} (f : X -> bool) (l : list X) :
  (forall x, In x l -> f x = true) -> filter f l = l.
Proof.
  induction l as [ | x l IH]; simpl; intros H; auto.
  rewrite (H x) by now left. f_equal. apply IH. intros y Hy. apply H. now right.
Qed.

Lemma filter_head {X : Type} (f : X -> bool) (x : X) (l : list X) :
  filter f (x :: l) = if f x then x :: filter f l else filter f l.
Proof. reflexivity. Qed.

Section SetDifference.

Variable cmp : val -> val -> Z.
Variable L : list val.
Hypothesis consistent : total_order_consistent cmp L = true.

Lemma lt_le_trans x y z :
  In x L -> In y L -> In z L -> cmp x y < 0 -> cmp y z <= 0 -> cmp x z < 0.
Proof.
  intros Hx Hy Hz Lxy Lyz.
  pose proof (cmp_trans cmp L consistent x y z Hx Hy Hz).
  pose proof (cmp_trans cmp L consistent y z x Hy Hz Hx).
  pose proof (cmp_flip cmp L consistent x y Hx Hy).
  pose proof (cmp_flip cmp L consistent x z Hx Hz).
  lia.
Qed.

Lemma le_lt_trans x y z :
  In x L -> In y L -> In z L -> cmp x y <= 0 -> cmp y z < 0 -> cmp x z < 0.
Proof.
  intros Hx Hy Hz Lxy Lyz.
  pose proof (cmp_trans cmp L consistent x y z Hx Hy Hz).
  pose proof (cmp_trans cmp L consistent z x y Hz Hx Hy).
  pose proof (cmp_flip cmp L consistent y z Hy Hz).
  pose proof (cmp_flip cmp L consistent x z Hx Hz).
  lia.
Qed.

Lemma increasing_cons x l :
  increasing cmp (x :: l) = true ->
  (forall y, l = y :: tl l -> cmp x y < 0) /\ increasing cmp l = true.
Proof.
  destruct l as [ | y l]; simpl.
  - intros _. split; [intros y E; discriminate | reflexivity].
  - intros H. apply andb_true_iff in H. destruct H as [H S].
    apply Z.ltb_lt in H. split; [ | exact S].
    intros y0 E. now injection E as <-.
Qed.

(** The head of an increasing list is below all the others. *)
Lemma increasing_head_all x l :
  incl (x :: l) L -> increasing cmp (x :: l) = true ->
  forall y, In y l -> cmp x y < 0.
Proof.
  revert x. induction l as [ | y0 l IH]; intros x I S y Hy; [destruct Hy | ].
  apply increasing_cons in S. destruct S as [H S].
  specialize (H y0 eq_refl).
  destruct Hy as [<- | Hy]; [exact H | ].
  assert (I' : incl (y0 :: l) L) by (intros z Hz; apply I; now right).
  apply (lt_le_trans x y0 y).
  - apply I; now left.
  - apply I'; now left.
  - apply I'; now right.
  - exact H.
  - pose proof (IH y0 I' S y Hy). lia.
Qed.

(** What stands strictly below a whole list has no equal in it, and no
    element of the list has it for an equal. *)
Lemma below_no_equal x b B :
  In x L -> incl (b :: B) L -> increasing cmp (b :: B) = true ->
  cmp x b < 0 ->
  has_equal cmp (b :: B) x = false /\
  forall y, In y (b :: B) -> (cmp y x =? 0) = false.
Proof.
  intros Hx I S Lt.
  assert (A : forall y, In y (b :: B) -> cmp x y < 0).
  { intros y [<- | Hy]; [exact Lt | ].
    apply (lt_le_trans x b y); auto.
    - apply I; now left.
    - apply I; now right.
    - pose proof (increasing_head_all b B I S y Hy). lia. }
  split.
  - unfold has_equal. apply not_true_is_false. intros E.
    apply existsb_exists in E. destruct E as (y & Hy & E).
    apply Z.eqb_eq in E. specialize (A y Hy). lia.
  - intros y Hy. apply Z.eqb_neq.
    pose proof (cmp_flip cmp L consistent x y Hx (I y Hy)).
    specialize (A y Hy). lia.
Qed.

Lemma has_equal_cons x b B :
  has_equal cmp (b :: B) x = (cmp x b =? 0) || has_equal cmp B x.
Proof. reflexivity. Qed.

(** For two strictly increasing lists the merge is the set comparison. *)
Lemma merge_set_difference A B :
  incl A L -> incl B L ->
  increasing cmp A = true -> increasing cmp B = true ->
  tagged "left" (sorted_merge_compare cmp A B)
    = filter (fun a => negb (has_equal cmp B a)) A /\
  tagged "both" (sorted_merge_compare cmp A B)
    = filter (has_equal cmp B) A /\
  tagged "right" (sorted_merge_compare cmp A B)
    = filter (fun b => negb (has_equal cmp A b)) B.
Proof.
  pattern A, B. revert A B. apply (merge_cases_ind cmp).
  - intros B IA IB SA SB. rewrite sorted_merge_compare_nil_l.
    rewrite tagged_left_rights, tagged_both_rights, tagged_same_rights.
    repeat split. symmetry. now apply filter_all.
  - intros a A IA IB SA SB. rewrite sorted_merge_compare_nil_r.
    rewrite tagged_same_lefts, tagged_both_lefts, tagged_right_lefts.
    repeat split.
    + symmetry. now apply filter_all.
    + symmetry. now apply filter_none.
  - intros a A b B E IH IA IB SA SB.
    assert (Ha : In a L) by (apply IA; now left).
    assert (Hb : In b L) by (apply IB; now left).
    destruct (increasing_cons _ _ SA) as [_ SA'].
    destruct (increasing_cons _ _ SB) as [_ SB'].
    destruct (IH (incl_tail _ _ _ IA) (incl_tail _ _ _ IB) SA' SB')
      as (Hl & Hb' & Hr).
    destruct (cmp_flip cmp L consistent a b Ha Hb) as [? | [[_ E'] | ?]];
      try lia.
    assert (XA : forall a', In a' A -> has_equal cmp (b :: B) a' = has_equal cmp B a').
    { intros a' Ha'. rewrite has_equal_cons.
      replace (cmp a' b =? 0) with false; [reflexivity | ].
      symmetry. apply Z.eqb_neq.
      assert (Ha'L : In a' L) by (apply IA; now right).
      pose proof (increasing_head_all a A IA SA a' Ha').
      pose proof (le_lt_trans b a a' Hb Ha Ha'L ltac:(lia) ltac:(lia)).
      pose proof (cmp_flip cmp L consistent b a' Hb Ha'L). lia. }
    assert (XB : forall b', In b' B -> has_equal cmp (a :: A) b' = has_equal cmp A b').
    { intros b' Hb'0. rewrite has_equal_cons.
      replace (cmp b' a =? 0) with false; [reflexivity | ].
      symmetry. apply Z.eqb_neq.
      assert (Hb'L : In b' L) by (apply IB; now right).
      pose proof (increasing_head_all b B IB SB b' Hb'0).
      pose proof (le_lt_trans a b b' Ha Hb Hb'L ltac:(lia) ltac:(lia)).
      pose proof (cmp_flip cmp L consistent a b' Ha Hb'L). lia. }
    rewrite (merge_equal cmp a A b B) by assumption.
    change (tagged "left" (both_record a :: sorted_merge_compare cmp A B))
      with (tagged "left" (sorted_merge_compare cmp A B)).
    change (tagged "both" (both_record a :: sorted_merge_compare cmp A B))
      with (a :: tagged "both" (sorted_merge_compare cmp A B)).
    change (tagged "right" (both_record a :: sorted_merge_compare cmp A B))
      with (tagged "right" (sorted_merge_compare cmp A B)).
    rewrite Hl, Hb', Hr.
    rewrite !(filter_head _ a A), (filter_head _ b B). cbv beta.
    rewrite !has_equal_cons.
    replace (cmp a b =? 0) with true by (symmetry; now apply Z.eqb_eq).
    replace (cmp b a =? 0) with true by (symmetry; now apply Z.eqb_eq).
    cbn [orb negb]. repeat split.
    + apply filter_ext_in. intros a' Ha'. now rewrite XA.
    + f_equal. apply filter_ext_in. intros a' Ha'. now rewrite XA.
    + apply filter_ext_in. intros b' Hb'0. now rewrite XB.
  - intros a A b B Lt IH IA IB SA SB.
    assert (Ha : In a L) by (apply IA; now left).
    destruct (increasing_cons _ _ SA) as [_ SA'].
    destruct (IH (incl_tail _ _ _ IA) IB SA' SB) as (Hl & Hb' & Hr).
    destruct (below_no_equal a b B Ha IB SB Lt) as [N1 N2].
    rewrite (merge_less cmp a A b B) by assumption.
    change (tagged "left" (left_record a :: sorted_merge_compare cmp A (b :: B)))
      with (a :: tagged "left" (sorted_merge_compare cmp A (b :: B))).
    change (tagged "both" (left_record a :: sorted_merge_compare cmp A (b :: B)))
      with (tagged "both" (sorted_merge_compare cmp A (b :: B))).
    change (tagged "right" (left_record a :: sorted_merge_compare cmp A (b :: B)))
      with (tagged "right" (sorted_merge_compare cmp A (b :: B))).
    rewrite Hl, Hb', Hr.
    rewrite !(filter_head _ a A). cbv beta. rewrite N1. cbn [negb].
    repeat split.
    apply filter_ext_in. intros y Hy.
    rewrite (has_equal_cons y a A), (N2 y Hy). reflexivity.
  - intros a A b B Gt IH IA IB SA SB.
    assert (Ha : In a L) by (apply IA; now left).
    assert (Hb : In b L) by (apply IB; now left).
    destruct (increasing_cons _ _ SB) as [_ SB'].
    destruct (IH IA (incl_tail _ _ _ IB) SA SB') as (Hl & Hb' & Hr).
    assert (Lt : cmp b a < 0)
      by (destruct (cmp_flip cmp L consistent a b Ha Hb) as [? | [? | ?]]; lia).
    destruct (below_no_equal b a A Hb IA SA Lt) as [N1 N2].
    rewrite (merge_greater cmp a A b B) by assumption.
    change (tagged "left" (right_record b :: sorted_merge_compare cmp (a :: A) B))
      with (tagged "left" (sorted_merge_compare cmp (a :: A) B)).
    change (tagged "both" (right_record b :: sorted_merge_compare cmp (a :: A) B))
      with (tagged "both" (sorted_merge_compare cmp (a :: A) B)).
    change (tagged "right" (right_record b :: sorted_merge_compare cmp (a :: A) B))
      with (b :: tagged "right" (sorted_merge_compare cmp (a :: A) B)).
    rewrite Hl, Hb', Hr.
    assert (XA : forall x, In x (a :: A) -> has_equal cmp (b :: B) x = has_equal cmp B x).
    { intros x Hx. rewrite has_equal_cons, (N2 x Hx). reflexivity. }
    repeat split.
    + apply filter_ext_in. intros x Hx. now rewrite XA.
    + apply filter_ext_in. intros x Hx. now rewrite XA.
    + rewrite (filter_head _ b B). cbv beta. now rewrite N1.
Qed.

End SetDifference.

(** X14: two strictly increasing sequences are compared as sets.  For
    sources delivering strictly increasing sequences [A] and [B] (under a
    total-order-consistent comparator, default extractor), the result
    has a [left] record exactly for the elements of [A] with no equal in
    [B], a [both] record exactly for the elements of [A] with an equal in
    [B], and a [right] record exactly for the elements of [B] with no
    equal in [A], each group in the order of its sequence. *)
Theorem increasing_sequences_as_sets (cf : cmp_fn) (cmp : val -> val -> Z)
    (sh1 sh2 : shape) (beh1 beh2 : nat -> pull) (A B : list val) (n : nat) :
  yields beh1 0 A -> yields beh2 0 B ->
  (forall a b, In a A -> In b B -> cf a b = Ok (cmp a b)) ->
  total_order_consistent cmp (A ++ B) = true ->
  increasing cmp A = true -> increasing cmp B = true ->
  (length A + length B < n)%nat ->
  exists res,
    _deferred (run n (started cf defaultExtract
                        (Iter sh1 {| behaviour := beh1; pulls := 0 |})
                        (Iter sh2 {| behaviour := beh2; pulls := 0 |})))
      = Some (Resolved res) /\
    tagged "left" res = filter (fun a => negb (has_equal cmp B a)) A /\
    tagged "both" res = filter (has_equal cmp B) A /\
    tagged "right" res = filter (fun b => negb (has_equal cmp A b)) B.
Proof.
  intros Y1 Y2 Hc Ho SA SB Hn.
  destruct (run_from_start cf cmp sh1 sh2 beh1 beh2 A B n Y1 Y2 Hc Hn)
    as (ns & E).
  exists (sorted_merge_compare cmp A B). rewrite E.
  split; [reflexivity | ].
  apply (merge_set_difference cmp (A ++ B) Ho); auto.
  - apply incl_appl, incl_refl.
  - apply incl_appr, incl_refl.
Qed.

Lemma increasing_sequences_as_sets_witness :
  let A := [VNum 1; VNum 3; VNum 5; VNum 7] in
  let B := [VNum 3; VNum 4; VNum 5; VNum 8] in
  exists res,
    _deferred (run 9 (started (defaultCmp plain_host) defaultExtract
                        (of_list A) (of_list B))) = Some (Resolved res) /\
    tagged "left" res = [VNum 1; VNum 7] /\
    tagged "both" res = [VNum 3; VNum 5] /\
    tagged "right" res = [VNum 4; VNum 8].
Proof.
  intros A B.
  apply (increasing_sequences_as_sets (defaultCmp plain_host) natural
           Callable Callable (list_behaviour A) (list_behaviour B) A B 9).
  - cbn. repeat (split; [reflexivity | ]). exists VUndefined. split; reflexivity.
  - cbn. repeat (split; [reflexivity | ]). exists VUndefined. split; reflexivity.
  - intros a b _ _. apply natural_defaultCmp.
  - vm_compute. reflexivity.
  - vm_compute. reflexivity.
  - vm_compute. reflexivity.
  - simpl. lia.
Defined.

(** * The calls of the extractor *)

Section ExtractorCalls.

Context {R : Type}.
Implicit Types st : engine R.

Lemma compareValues_records (v1 v2 : val) st :
  _deferred st = Some Pending ->
  let st' := snd (_compareValues v1 v2 st) in
  _results st' = _results st \/
  exists r, _results st' = _results st ++ [r] /\ extractor_call (extractFn st) r.
Proof.
  intros H. destruct st as [c x d i1 i2 res q ns]. simpl in H. subst d.
  unfold_methods.
  by_cases; absurd_case; auto; right; eexists; (split; [reflexivity | ]);
    unfold extractor_call; bool_facts;
    match goal with
    | E : _ ?a ?b 0 = Ok _ |- _ =>
        left; exists a, b; repeat split; assumption
    | E : _ ?a VNull (-1) = Ok _ |- _ =>
        right; left; exists a; split; assumption
    | E : _ VNull ?b 1 = Ok _ |- _ =>
        right; right; exists b; split; assumption
    end.
Qed.

Lemma reject_extractFn e st : extractFn (reject e st) = extractFn st.
Proof. unfold reject. now destruct (_deferred st) as [[ | | ] | ]. Qed.

Lemma tick_records (x : extract_fn R) st :
  well_formed st -> extractFn st = x ->
  Forall (extractor_call x) (_results st) ->
  extractFn (tick st) = x /\ Forall (extractor_call x) (_results (tick st)).
Proof.
  intros [_ [[Hq _] | [(t & Hq) Hd]]] X F.
  - rewrite tick_idle by assumption. auto.
  - unfold tick, run_task. rewrite Hq.
    destruct (awaited t) as [v1 v2 | e].
    + assert (Hd' : _deferred (set_queue [] st) = Some Pending) by exact Hd.
      destruct (compareValues_cases v1 v2 _ Hd') as (_ & HX & _).
      pose proof (compareValues_records v1 v2 _ Hd') as P. simpl in P, HX.
      unfold callback.
      destruct (_compareValues v1 v2 (set_queue [] st)) as [[u | e] st'];
        simpl in *; rewrite ?reject_extractFn, ?reject_results;
        (split; [congruence | ]);
        (destruct P as [-> | (r & -> & C)];
         [exact F | apply Forall_app; split; [exact F | ]; constructor; auto;
                    now rewrite <- X]).
    + rewrite reject_extractFn, reject_results. auto.
Qed.

(** X15: how the extractor is called.  In every run, each record of the
    accumulator is what the configured extractor returned for one of three
    calls: [(v1, v2, 0)] with two truthy values, [(v1, null, -1)] or
    [(null, v2, 1)] with one truthy value.  The extractor never sees a
    falsy value other than [null], nor any comparison result other than
    [-1], [0] and [1], whatever the comparator answers. *)
Theorem extractor_calls (c : cmp_fn) (x : extract_fn R) (it1 it2 : iterator)
    (n : nat) :
  let st := run n (started c x it1 it2) in
  extractFn st = x /\ Forall (extractor_call x) (_results st).
Proof.
  simpl. induction n as [ | n IH].
  - simpl. destruct (started_empty c x it1 it2) as [Hr _].
    rewrite Hr. split; [ | constructor].
    unfold started, compare, create. unfold_methods. by_cases; reflexivity.
  - replace (S n) with (n + 1)%nat by lia. rewrite run_add. simpl run.
    destruct IH as [X F]. apply tick_records; auto.
    apply run_well_formed, started_well_formed.
Qed.

End ExtractorCalls.

(** * Every comparison of finite sequences settles *)

Section Settles.

Context {R : Type}.
Variables (c : cmp_fn) (x : extract_fn R).
Variables (sh1 sh2 : shape) (beh1 beh2 : nat -> pull).

Let glive := running_with c x sh1 sh2 beh1 beh2.

Ltac gstep := cbv zeta; unfold glive, running_with, callback; by_steps.

Lemma tick_running_with t v1 v2 k1 k2 acc ns :
  awaited t = Fulfils2 v1 v2 ->
  tick (glive k1 k2 acc [t] ns) =
  callback (_compareValues v1 v2) (glive k1 k2 acc [] ns).
Proof. intros H. unfold tick, run_task. cbn. now rewrite H. Qed.

(** One callback, for any comparator and extractor: it settles the
    comparison (both values falsy, or a throw), or it has accounted for
    one more element at least and waits for the next values.  After an
    unordered answer the element of the right source is dropped, without a
    record. *)
Lemma any_step (A B : list val) v1 v2 k1 k2 acc ns :
  held beh1 k1 v1 A -> held beh2 k2 v2 B ->
  let st' := callback (_compareValues v1 v2) (glive k1 k2 acc [] ns) in
  (settled st' = true /\ queue st' = []) \/
  (exists A' B' v1' v2' k1' k2' acc' ns' t,
     st' = glive k1' k2' acc' [t] ns' /\ awaited t = Fulfils2 v1' v2' /\
     held beh1 k1' v1' A' /\ held beh2 k2' v2' B' /\
     (S (length A' + length B') <= length A + length B)%nat).
Proof.
  intros H1 H2. destruct A as [ | a A']; destruct B as [ | b B'].
  - simpl in H1, H2. left. gstep. split; reflexivity.
  - destruct H2 as (-> & Tb & Y2). simpl in H1.
    destruct (yields_held _ _ _ Y2) as (v' & p & W & O & H').
    destruct (x VNull b 1) as [r | e] eqn:X; gstep;
      [ | left; split; reflexivity].
    right.
    exists [], B', VUndefined, v', k1, (S k2), (acc ++ [r]),
      (ns ++ [acc ++ [r]]), (ThenRight VUndefined p).
    repeat split; auto using awaited_right; simpl; lia.
  - destruct H1 as (-> & Ta & Y1). simpl in H2.
    destruct (yields_held _ _ _ Y1) as (v' & p & W & O & H').
    destruct (x a VNull (-1)) as [r | e] eqn:X; gstep;
      [ | left; split; reflexivity].
    right.
    exists A', [], v', VUndefined, (S k1), k2, (acc ++ [r]),
      (ns ++ [acc ++ [r]]), (ThenLeft p VUndefined).
    repeat split; auto using awaited_left; simpl; lia.
  - destruct H1 as (-> & Ta & Y1). destruct H2 as (-> & Tb & Y2).
    destruct (yields_held _ _ _ Y1) as (v1' & p1 & W1 & O1 & H1').
    destruct (yields_held _ _ _ Y2) as (v2' & p2 & W2 & O2 & H2').
    destruct (c a b) as [[z | ] | e] eqn:C;
      [ | | gstep; left; split; reflexivity].
    + destruct (Z.lt_trichotomy z 0) as [L | [-> | G]].
      * destruct (x a VNull (-1)) as [r | e] eqn:X; gstep;
          [ | left; split; reflexivity].
        right.
        exists A', (b :: B'), v1', b, (S k1), k2, (acc ++ [r]),
          (ns ++ [acc ++ [r]]), (ThenLeft p1 b).
        repeat split; auto using awaited_left; simpl; lia.
      * destruct (x a b 0) as [r | e] eqn:X; gstep;
          [ | left; split; reflexivity].
        right.
        exists A', B', v1', v2', (S k1), (S k2), (acc ++ [r]),
          (ns ++ [acc ++ [r]]), (ThenBoth p1 p2).
        repeat split; auto using awaited_both; simpl; lia.
      * destruct (x VNull b 1) as [r | e] eqn:X; gstep;
          [ | left; split; reflexivity].
        right.
        exists (a :: A'), B', a, v2', k1, (S k2), (acc ++ [r]),
          (ns ++ [acc ++ [r]]), (ThenRight a p2).
        repeat split; auto using awaited_right; simpl; lia.
    + gstep. right.
      exists (a :: A'), B', a, v2', k1, (S k2), acc, (ns ++ [acc]),
        (ThenRight a p2).
      repeat split; auto using awaited_right; simpl; lia.
Qed.

Lemma settles_from_values (m : nat) :
  forall (A B : list val), (length A + length B <= m)%nat ->
  forall v1 v2 k1 k2 acc ns n,
    held beh1 k1 v1 A -> held beh2 k2 v2 B -> (m <= n)%nat ->
    settled (run n (callback (_compareValues v1 v2) (glive k1 k2 acc [] ns)))
      = true.
Proof.
  induction m as [ | m IH]; intros A B Hlen v1 v2 k1 k2 acc ns n H1 H2 Hn;
    destruct (any_step A B v1 v2 k1 k2 acc ns H1 H2)
      as [[S Q] | (A' & B' & v1' & v2' & k1' & k2' & acc' & ns' & t
                   & E & Aw & G1 & G2 & Lt)];
    try (rewrite run_idle by exact Q; exact S); try lia.
  destruct n as [ | n]; [lia | ].
  rewrite E, run_tick, (tick_running_with t v1' v2') by exact Aw.
  apply (IH A' B'); auto; lia.
Qed.

(** X16: a comparison of two finite sequences always settles.  Whatever
    the comparator and the extractor do (inconsistent or unordered
    answers, throws),
    when the two sources deliver [A] and [B] the promise is resolved or
    rejected after at most [length A + length B + 1] turns of the event
    loop, and then nothing is left to run. *)
Theorem always_settles (A B : list val) (n : nat) :
  yields beh1 0 A -> yields beh2 0 B -> (length A + length B < n)%nat ->
  let st := run n (started c x (Iter sh1 {| behaviour := beh1; pulls := 0 |})
                             (Iter sh2 {| behaviour := beh2; pulls := 0 |})) in
  settled st = true /\ queue st = [].
Proof.
  intros Y1 Y2 Hn st.
  assert (S : settled st = true).
  { destruct (yields_held _ _ _ Y1) as (v1 & p1 & W1 & O1 & H1).
    destruct (yields_held _ _ _ Y2) as (v2 & p2 & W2 & O2 & H2).
    assert (E : started c x (Iter sh1 {| behaviour := beh1; pulls := 0 |})
                            (Iter sh2 {| behaviour := beh2; pulls := 0 |}) =
                glive 1 1 [] [ThenBoth p1 p2] []).
    { exact (started_running_with c x sh1 sh2 beh1 beh2 p1 p2 W1 W2). }
    subst st. rewrite E. destruct n as [ | n]; [lia | ].
    rewrite run_tick, (tick_running_with _ v1 v2) by now apply awaited_both.
    apply (settles_from_values (length A + length B) A B); auto; lia. }
  split; [exact S | ].
  destruct (run_well_formed n _ (started_well_formed c x
              (Iter sh1 {| behaviour := beh1; pulls := 0 |})
              (Iter sh2 {| behaviour := beh2; pulls := 0 |})))
    as [_ [[Hq _] | [_ Hd]]]; [exact Hq | ].
  apply settled_not_pending in S. contradiction.
Qed.

End Settles.

Lemma always_settles_witness :
  let st := run 6 (started (fun a b => Ok 1) defaultExtract
                     (of_list [VNum 1; VNum 2]) (of_list [VNum 1; VNum 2; VNum 3])) in
  settled st = true /\ queue st = [].
Proof.
  apply (always_settles (fun a b => Ok 1) defaultExtract Callable Callable
           (list_behaviour [VNum 1; VNum 2])
           (list_behaviour [VNum 1; VNum 2; VNum 3])
           [VNum 1; VNum 2] [VNum 1; VNum 2; VNum 3] 6).
  - cbn. repeat (split; [reflexivity | ]). exists VUndefined. split; reflexivity.
  - cbn. repeat (split; [reflexivity | ]). exists VUndefined. split; reflexivity.
  - simpl. lia.
Defined.

(** * Unordered answers *)

Section UnorderedAnswers.

Context {R : Type}.
Implicit Types st : engine R.

Lemma callIter_pulled (it : iterator) (p : promise) :
  fst (callIter it) = Ok p -> pulled (snd (callIter it)) = S (pulled it).
Proof. destruct it as [[ | ] s | | ]; try discriminate; reflexivity. Qed.

Lemma compareValues_unordered (v1 v2 : val) (p : promise) st :
  _deferred st = Some Pending ->
  calls_nothing (compareFn st) v1 v2 ->
  fst (callIter (_iter2 st)) = Ok p ->
  _compareValues v1 v2 st =
  (Ok tt,
   set_queue (queue st ++ [ThenRight v1 p])
     (set_iter2 (snd (callIter (_iter2 st)))
        (set_notified (notified st ++ [_results st]) st))).
Proof.
  intros H (T1 & T2 & C) P. destruct st as [c x d i1 i2 res q ns].
  simpl in *. subst d. unfold_engine.
  destruct (callIter i2) as [r2 j2] eqn:E2. simpl in P. subst r2.
  by_facts. reflexivity.
Qed.

(** X17: what an unordered answer does.  When the comparator, given the
    two values a turn of the event loop awaits, answers with a value that
    is neither [=== 0], [< 0] nor [> 0] ([NaN], [undefined], ...), the
    engine adds no record, keeps the left value, calls the right source
    once more and waits for it: the right value is dropped from the
    result. *)
Theorem unordered_answer_drops_right (c : cmp_fn) (x : extract_fn R)
    (it1 it2 : iterator) (n : nat) (t : task) (q : list task)
    (v1 v2 : val) (p : promise) :
  let st := run n (started c x it1 it2) in
  queue st = t :: q -> awaited t = Fulfils2 v1 v2 ->
  calls_nothing c v1 v2 ->
  fst (callIter (_iter2 st)) = Ok p ->
  let st' := tick st in
  _results st' = _results st /\
  _deferred st' = Some Pending /\
  queue st' = [ThenRight v1 p] /\
  _iter1 st' = _iter1 st /\
  pulled (_iter2 st') = S (pulled (_iter2 st)).
Proof.
  intros st Q A U P st'.
  assert (W : well_formed st)
    by apply run_well_formed, started_well_formed.
  assert (Q0 : q = []).
  { destruct W as [_ [[Hq _] | [(t' & Hq) _]]]; congruence. }
  subst q.
  destruct (reachable_functions c x it1 it2 n) as [Fc _]. fold st in Fc.
  destruct (tick_callback t [] v1 v2 st W Q A) as [Hd E].
  subst st'. rewrite E. unfold callback.
  rewrite (compareValues_unordered v1 v2 p (set_queue [] st) Hd)
    by (simpl; congruence).
  simpl. repeat split;
    first [exact Hd | exact (callIter_pulled _ p P) | reflexivity].
Qed.

End UnorderedAnswers.

Lemma unordered_answer_drops_right_witness :
  let c : cmp_fn := fun _ _ => Ok Unordered in
  let st := started c defaultExtract (of_list [VNum 1]) (of_list [VNum 2; VNum 3]) in
  _results (tick st) = [] /\
  _deferred (tick st) = Some Pending /\
  queue (tick st)
    = [ThenRight (VNum 1) {| delay := 0; outcome := Fulfils (VNum 3) |}] /\
  _iter1 (tick st) = _iter1 st /\
  pulled (_iter2 (tick st)) = 2%nat.
Proof.
  intros c st.
  apply (unordered_answer_drops_right c defaultExtract
           (of_list [VNum 1]) (of_list [VNum 2; VNum 3]) 0
           (ThenBoth {| delay := 0; outcome := Fulfils (VNum 1) |}
                     {| delay := 0; outcome := Fulfils (VNum 2) |})
           [] (VNum 1) (VNum 2)
           {| delay := 0; outcome := Fulfils (VNum 3) |}).
  - reflexivity.
  - reflexivity.
  - repeat split.
  - reflexivity.
Defined.
